(** * agora-tally: the approval voting system ([voting_systems/approval.py])

    A shallow embedding of [ApprovalTally] and a verification of its vote
    decoder, answer index, ballot aggregator, ballot-file writer and result
    composer.

    Python values are modelled as follows: [int] is [Z]; [unicode] text is
    [string]; [float] is an IEEE-754 binary64 number ([spec_float] at
    precision 53); a [list] is a [list]; the dictionary
    [answer_to_ids_dict] is a [gmap string Z]; [set(ret)] is a
    [gset string]; a raised exception is [None].  The ballot file is
    modelled by the text written to it so far.  The winners of the tally
    report are byte strings, which [fill_results] decodes: a byte string is
    a [string] whose characters are its bytes, and the text decoded from it
    is the list of its code points. *)

From Stdlib Require Import ZArith Ascii String.
From Stdlib Require Import Decimal DecimalFacts DecimalPos DecimalZ DecimalString.
From Stdlib Require Import Floats.SpecFloat.
From stdpp Require Import base option list gmap strings fin_maps fin_sets.

Local Open Scope Z_scope.

(** ** Data model *)

(** A Python number as stored by [fill_results]: the literal [0] is an
    [int], the quotient is a [float]. *)
Inductive pynum :=
| PyInt (z : Z)
| PyFloat (f : spec_float).

(** One entry of [question['answers']].  The keys ['total_count'] and
    ['total_count_percentage'] are absent until [fill_results] sets them. *)
Record answer := mkAnswer {
  value : string;
  total_count : option Z;
  total_count_percentage : option pynum
}.

(** [result[self.question_num]].  The keys ['total_votes'], ['dirty_votes']
    and ['winners'] are absent until [fill_results] sets them; the winners
    it stores are decoded texts, each the list of its code points. *)
Record question := mkQuestion {
  q_answers : list answer;
  q_min : Z;
  q_max : Z;
  q_num_seats : Z;
  q_question : string;
  q_total_votes : option Z;
  q_dirty_votes : option Z;
  q_winners : option (list (list Z))
}.

(** One item of [self.ballots]: [{'votes': 12, 'answers': [2, 1, 4]}]. *)
Record ballot := mkBallot {
  votes : Z;
  answers : list Z
}.

#[global] Instance ballot_eq_dec : EqDecision ballot.
Proof. solve_decision. Defined.

(** The fields of an [ApprovalTally] object that the tally reads and
    writes.  [ballots_file] holds the text written to the file so far. *)
Record ApprovalTally := mkTally {
  ballots_file : string;
  ballots : list ballot;
  answer_to_ids_dict : gmap string Z;
  num_seats : Z
}.

(** [init]: fresh ballot list and dictionary; the class attributes
    [ballots_file = None] and [num_seats = -1] are still in place. *)
Definition init : ApprovalTally :=
  {| ballots_file := ""; ballots := []; answer_to_ids_dict := ∅;
     num_seats := -1 |}.

(** ** AnswerIndex and BallotAggregator *)

(** [self.answer_to_ids_dict.get(answer, -1)] *)
Definition answer2id (t : ApprovalTally) (a : string) : Z :=
  default (-1) (answer_to_ids_dict t !! a).

(** [find_ballot] returns a reference to the first item of [self.ballots]
    whose ['answers'] list equals the given one; the reference is modelled
    by the item's position, so that the caller's in-place update reaches the
    list. *)
Fixpoint find_ballot (bs : list ballot) (ans : list Z) : option nat :=
  match bs with
  | [] => None
  | b :: bs' =>
      if decide (answers b = ans) then Some 0%nat
      else S <$> find_ballot bs' ans
  end.

(** [ballot['votes'] += 1] *)
Definition incr_votes (b : ballot) : ballot :=
  {| votes := votes b + 1; answers := answers b |}.

Definition set_ballots (t : ApprovalTally) (bs : list ballot) : ApprovalTally :=
  {| ballots_file := ballots_file t; ballots := bs;
     answer_to_ids_dict := answer_to_ids_dict t; num_seats := num_seats t |}.

(** [add_vote], applied to [voter_answers[self.question_num]['choices']]. *)
Definition add_vote (t : ApprovalTally) (choices : list string) : ApprovalTally :=
  let ans := map (answer2id t) choices in
  if decide (-1 ∈ ans) then t
  else
    match find_ballot (ballots t) ans with
    | Some i => set_ballots t (alter incr_votes i (ballots t))
    | None => set_ballots t (ballots t ++ [ {| votes := 1; answers := ans |} ])
    end.

(** Adding the votes of a sequence of voters, one after the other. *)
Definition add_votes (t : ApprovalTally) (vs : list (list string)) : ApprovalTally :=
  foldl add_vote t vs.

(** The ballot that a vote creates when its id list is new. *)
Definition single (t : ApprovalTally) (v : list string) : ballot :=
  {| votes := 1; answers := map (answer2id t) v |}.

(** ** Text conversions *)

(** The characters the ballot file needs besides letters and digits. *)
Definition nl : string := String "010"%char "".
Definition dquote : string := String "034"%char "".

(** [str(n)] and ['%d' % n] for a Python [int]. *)
Definition py_str (z : Z) : string := NilZero.string_of_int (Z.to_int z).

(** [int(s)] for a text made of decimal digits with an optional leading
    minus sign; any other text raises [ValueError]. *)
Definition py_int (s : string) : option Z :=
  Z.of_int <$> NilZero.int_of_string s.

(** [s * k] for a text [s]. *)
Fixpoint str_mul (s : string) (k : nat) : string :=
  match k with
  | O => ""
  | S k' => s +:+ str_mul s k'
  end.

(** [s[lo:hi]], clamped to the text as Python slices are. *)
Definition py_slice (s : string) (lo hi : nat) : string :=
  substring lo (hi - lo) s.

(** [s.replace("\n", "")] *)
Fixpoint strip_newlines (s : string) : string :=
  match s with
  | EmptyString => EmptyString
  | String c s' =>
      if Ascii.eqb c "010" then strip_newlines s'
      else String c (strip_newlines s')
  end.

(** ** VoteDecoder *)

(** [len(str(len(question['answers']) + 2))] *)
Definition tab_size (q : question) : nat :=
  String.length (py_str (Z.of_nat (length (q_answers q)) + 2)).

(** The zeros added in front of [vote_str] (lines 85-87). *)
Definition num_zeros (tab len : nat) : nat :=
  ((tab - (len mod tab)) mod tab)%nat.

Definition pad_vote (tab : nat) (vote_str : string) : string :=
  if decide ((String.length vote_str mod tab)%nat ≠ 0%nat)
  then str_mul "0" (num_zeros tab (String.length vote_str)) +:+ vote_str
  else vote_str.

(** [int(vote_str[i*tab_size: (i+1)*tab_size]) - 1] *)
Definition field_option (tab : nat) (vote_str : string) (i : nat) : option Z :=
  n ← py_int (py_slice vote_str (i * tab) ((i + 1) * tab));
  Some (n - 1).

(** One turn of the loop of [parse_vote] (lines 91-100): the text appended
    to [ret], or [None] when the turn raises. *)
Definition parse_field (q : question) (tab : nat) (vote_str : string)
    (i : nat) : option string :=
  opt ← field_option tab vote_str i;
  if decide (opt < 0) then None
  else if decide (opt < Z.of_nat (length (q_answers q)))
  then value <$> q_answers q !! Z.to_nat opt
  else None.

(** The loop of [parse_vote] (lines 89-100).  After the padding the length
    of [vote_str] is a multiple of [tab_size], so the quotient is exact. *)
Definition parse_fields (number : Z) (q : question) : option (list string) :=
  let tab := tab_size q in
  let vote_str := pad_vote tab (py_str number) in
  mapM (parse_field q tab vote_str)
       (seq 0 (String.length vote_str / tab)).

(** The test of lines 103-104. *)
Definition invalid_vote (q : question) (ret : list string) : Prop :=
  Z.of_nat (length ret) < q_min q ∨ Z.of_nat (length ret) > q_max q ∨
  size (list_to_set ret : gset string) ≠ length ret.

#[global] Instance invalid_vote_dec q ret : Decision (invalid_vote q ret).
Proof. unfold invalid_vote. apply _. Defined.

Definition parse_vote (number : Z) (q : question) : option (list string) :=
  ret ← parse_fields number q;
  if decide (invalid_vote q ret) then None else Some ret.

(** ** Building the AnswerIndex and writing the ballot file *)

(** The loop of lines 123-126. *)
Fixpoint fill_answer_to_ids (l : list answer) (i : Z) (d : gmap string Z)
    : gmap string Z :=
  match l with
  | [] => d
  | a :: l' => fill_answer_to_ids l' (i + 1) (<[value a := i]> d)
  end.

(** ['%d %d\n' % (len(question['answers']), question['num_seats'])] *)
Definition header_line (q : question) : string :=
  py_str (Z.of_nat (length (q_answers q))) +:+ " " +:+
  py_str (q_num_seats q) +:+ nl.

(** [pre_tally]: the file is opened for writing, which empties it, and the
    header is written. *)
Definition pre_tally (t : ApprovalTally) (q : question) : ApprovalTally :=
  {| ballots_file := header_line q;
     ballots := ballots t;
     answer_to_ids_dict := fill_answer_to_ids (q_answers q) 1 (answer_to_ids_dict t);
     num_seats := q_num_seats q |}.

(** ['%d %s 0\n' % (ballot['votes'], ' '.join([str(a) for a in ballot['answers']]))] *)
Definition ballot_line (b : ballot) : string :=
  py_str (votes b) +:+ " " +:+
  String.concat " " (map py_str (answers b)) +:+ " 0" +:+ nl.

(** [u'"%s"\n' % name] *)
Definition quoted_line (s : string) : string :=
  dquote +:+ s +:+ dquote +:+ nl.

(** Writing a sequence of lines, one [write] after the other. *)
Definition write_lines (file : string) (lines : list string) : string :=
  foldl String.append file lines.

Definition finish_writing_ballots_file (t : ApprovalTally) (q : question)
    : ApprovalTally :=
  let f1 := write_lines (ballots_file t) (map ballot_line (ballots t)) in
  let f2 := f1 +:+ ("0" +:+ nl) in
  let f3 := write_lines f2 (map (λ a, quoted_line (value a)) (q_answers q)) in
  let f4 := f3 +:+ quoted_line (strip_newlines (q_question q)) in
  {| ballots_file := f4; ballots := ballots t;
     answer_to_ids_dict := answer_to_ids_dict t; num_seats := num_seats t |}.

(** ** ResultComposer *)

(** The report of the tally engine, [self.report.json], as far as
    [fill_results] reads it.  The winners are byte strings. *)
Record json_report := mkReport {
  ballots_count : Z;
  dirty_ballots_count : Z;
  winners : list string;
  report_answers : gmap string Z
}.

(** The value of a byte, from 0 to 255. *)
Definition byte_value (c : ascii) : Z := Z.of_N (N_of_ascii c).

Definition between (lo hi b : Z) : bool := (lo <=? b) && (b <=? hi).

(** The bytes 0x80 to 0xBF, which continue a character. *)
Definition continuation (b : Z) : bool := between 128 191 b.

(** [s.decode('utf-8')] for a byte string: the code points of the
    characters, [UnicodeDecodeError] when the bytes are not well-formed
    UTF-8.  A character is one byte below 0x80, or a lead byte 0xC2-0xDF,
    0xE0-0xEF or 0xF0-0xF4 with one, two or three continuation bytes; the
    narrower range of the second byte after 0xE0, 0xED, 0xF0 and 0xF4
    refuses the overlong forms, the surrogates and what lies above
    U+10FFFF. *)
Fixpoint decode_utf8 (s : string) : option (list Z) :=
  match s with
  | EmptyString => Some []
  | String c0 s1 =>
      let b0 := byte_value c0 in
      if b0 <? 128 then (b0 ::.) <$> decode_utf8 s1
      else if between 194 223 b0 then
        match s1 with
        | String c1 s2 =>
            let b1 := byte_value c1 in
            if continuation b1
            then (((b0 - 192) * 64 + (b1 - 128)) ::.) <$> decode_utf8 s2
            else None
        | _ => None
        end
      else if between 224 239 b0 then
        match s1 with
        | String c1 (String c2 s3) =>
            let b1 := byte_value c1 in
            let b2 := byte_value c2 in
            if between (if b0 =? 224 then 160 else 128)
                       (if b0 =? 237 then 159 else 191) b1
               && continuation b2
            then (((b0 - 224) * 4096 + (b1 - 128) * 64 + (b2 - 128)) ::.)
                   <$> decode_utf8 s3
            else None
        | _ => None
        end
      else if between 240 244 b0 then
        match s1 with
        | String c1 (String c2 (String c3 s4)) =>
            let b1 := byte_value c1 in
            let b2 := byte_value c2 in
            let b3 := byte_value c3 in
            if between (if b0 =? 240 then 144 else 128)
                       (if b0 =? 244 then 143 else 191) b1
               && continuation b2 && continuation b3
            then (((b0 - 240) * 262144 + (b1 - 128) * 4096
                   + (b2 - 128) * 64 + (b3 - 128)) ::.) <$> decode_utf8 s4
            else None
        | _ => None
        end
      else None
  end.

(** Python's [float] is the IEEE-754 binary64 format: 53 bits of precision,
    exponents below 1024, rounding to nearest with ties to even. *)
Definition prec : Z := 53.
Definition emax : Z := 1024.

(** [float(z)] for an [int]: the nearest double, [OverflowError] when the
    integer is too large for one. *)
Definition float_of_int (z : Z) : option spec_float :=
  match binary_normalize prec emax z 0 false with
  | S754_infinity _ => None
  | f => Some f
  end.

(** The literal [100.0]. *)
Definition hundred : spec_float :=
  Eval vm_compute in binary_normalize prec emax 100 0 false.

(** [x / y] on floats: [ZeroDivisionError] when [y] is zero. *)
Definition float_div (x y : spec_float) : option spec_float :=
  match y with
  | S754_zero _ => None
  | _ => Some (SFdiv prec emax x y)
  end.

(** [(total_count * 100.0) / total_votes], both operands being [int]s that
    Python converts to [float] where they meet one. *)
Definition percentage_float (total_count total_votes : Z) : option spec_float :=
  c ← float_of_int total_count;
  t ← float_of_int total_votes;
  float_div (SFmul prec emax c hundred) t.

(** Lines 233-236. *)
Definition percentage (total_count total_votes : Z) : option pynum :=
  if decide (total_votes > 0)
  then PyFloat <$> percentage_float total_count total_votes
  else Some (PyInt 0).

(** Lines 224-226: the sum of the per-answer counts of the report. *)
Definition total_vote_weight (r : json_report) : Z :=
  map_fold (λ _ v acc, acc + v) 0 (report_answers r).

(** How a call ends. *)
Inductive outcome := Returned | Raised.

(** The loop of lines 228-236 over [question['answers']].  The answers are
    updated in place, so when a turn raises ([KeyError] for a name the
    report lacks, [OverflowError] in the conversion to [float]) the updates
    made so far stay. *)
Fixpoint fill_answers (r : json_report) (total_votes : Z) (l : list answer)
    : list answer * outcome :=
  match l with
  | [] => ([], Returned)
  | a :: l' =>
      match report_answers r !! value a with
      | None => (a :: l', Raised)
      | Some c =>
          match percentage c total_votes with
          | None => (mkAnswer (value a) (Some c) (total_count_percentage a) :: l', Raised)
          | Some p =>
              let '(l'', o) := fill_answers r total_votes l' in
              (mkAnswer (value a) (Some c) (Some p) :: l'', o)
          end
      end
  end.

(** Lines 218-219: [question['total_votes']] and
    [question['dirty_votes']]. *)
Definition store_totals (r : json_report) (q : question) : question :=
  {| q_answers := q_answers q; q_min := q_min q; q_max := q_max q;
     q_num_seats := q_num_seats q; q_question := q_question q;
     q_total_votes := Some (ballots_count r);
     q_dirty_votes := Some (dirty_ballots_count r - ballots_count r);
     q_winners := q_winners q |}.

(** Line 220: the list comprehension decodes the winners one after the
    other and builds a new list; it raises at a winner that is not UTF-8,
    and then nothing is assigned. *)
Definition decode_winners (r : json_report) : option (list (list Z)) :=
  mapM decode_utf8 (winners r).

(** Line 221: [question['winners']]. *)
Definition store_winners (ws : list (list Z)) (q : question) : question :=
  {| q_answers := q_answers q; q_min := q_min q; q_max := q_max q;
     q_num_seats := q_num_seats q; q_question := q_question q;
     q_total_votes := q_total_votes q; q_dirty_votes := q_dirty_votes q;
     q_winners := Some ws |}.

(** The question with its answers as the loop leaves them. *)
Definition store_answers (l : list answer) (q : question) : question :=
  {| q_answers := l; q_min := q_min q; q_max := q_max q;
     q_num_seats := q_num_seats q; q_question := q_question q;
     q_total_votes := q_total_votes q; q_dirty_votes := q_dirty_votes q;
     q_winners := q_winners q |}.

(** [fill_results], applied to [self.report.json] as the call finds it and
    to [result[self.question_num]]: the question as the call leaves it, and
    how the call ends.  The totals are stored first; the winners are decoded
    next, and a winner that cannot be decoded ends the call there, before
    the winners are stored and before any answer is touched; the loop over
    the answers comes last.  (Line 220 leaves the decoded list in the
    report as well.) *)
Definition fill_results (r : json_report) (q : question) : question * outcome :=
  let q1 := store_totals r q in
  match decode_winners r with
  | None => (q1, Raised)
  | Some ws =>
      let q2 := store_winners ws q1 in
      let '(l, o) := fill_answers r (total_vote_weight r) (q_answers q2) in
      (store_answers l q2, o)
  end.

(** Comparison of a stored percentage with an integer bound. *)
Definition pynum_le_int (p : pynum) (z : Z) : Prop :=
  match p with
  | PyInt n => n <= z
  | PyFloat f => SFleb f (binary_normalize prec emax z 0 false) = true
  end.

Definition int_le_pynum (z : Z) (p : pynum) : Prop :=
  match p with
  | PyInt n => z <= n
  | PyFloat f => SFleb (binary_normalize prec emax z 0 false) f = true
  end.

(** ** Vocabulary of the proofs *)

(** The decimal digits, and the texts made of them. *)
Definition is_digit (c : ascii) : bool :=
  (48 <=? nat_of_ascii c)%nat && (nat_of_ascii c <=? 57)%nat.

Fixpoint all_digits (s : string) : bool :=
  match s with
  | EmptyString => true
  | String c s' => is_digit c && all_digits s'
  end.

(** The mantissa and the exponent of the double that a positive integer
    below 2^53 converts to: the integer shifted left until it has 53 bits. *)
Definition norm_m (z : Z) : Z := z * 2 ^ (53 - Zdigits2 z).
Definition norm_e (z : Z) : Z := Zdigits2 z - 53.

(** ** Vocabulary of the further properties *)

(** A vote that [add_vote] counts: every choice resolves to an id. *)
Definition accepted (t : ApprovalTally) (choices : list string) : Prop :=
  -1 ∉ map (answer2id t) choices.

#[global] Instance accepted_dec t choices : Decision (accepted t choices).
Proof. unfold accepted. apply _. Defined.

(** The votes of a ballot list, and those held for one id list. *)
Definition votes_sum (bs : list ballot) : Z :=
  foldr (λ b acc, votes b + acc) 0 bs.

Definition votes_for (bs : list ballot) (ans : list Z) : Z :=
  votes_sum (filter (λ b, answers b = ans) bs).

(** What [add_vote] keeps true of the ballot list: no two ballots share an
    id list, and every ballot has a vote. *)
Definition well_grouped (bs : list ballot) : Prop :=
  NoDup (map answers bs) ∧ Forall (λ b, 1 <= votes b) bs.

(** The text of one field of an encoded vote: the position of an answer,
    counted from 1, with zeros in front up to the field width; and the text
    of a sequence of fields. *)
Definition field_text (tab : nat) (i : nat) : string :=
  str_mul "0" (tab - String.length (py_str (Z.of_nat i + 1)))
  +:+ py_str (Z.of_nat i + 1).

Definition fields_text (tab : nat) (idxs : list nat) : string :=
  foldr (λ i s, field_text tab i +:+ s) "" idxs.

(** A text that starts with a character other than the digit 0. *)
Definition leading_digit (s : string) : Prop :=
  match s with
  | EmptyString => False
  | String c _ => c ≠ "0"%char
  end.

(** The number of newline characters of a text: the number of lines of a
    text that ends with one. *)
Fixpoint count_nl (s : string) : nat :=
  match s with
  | EmptyString => 0
  | String c s' => (if Ascii.eqb c "010" then 1 else 0) + count_nl s'
  end.

(** Whether a text has a blank. *)
Fixpoint has_space (s : string) : bool :=
  match s with
  | EmptyString => false
  | String c s' => Ascii.eqb c " " || has_space s'
  end.

(** ** Example inputs *)

(** The example question of the specification: answers A, B and C, one or
    two selections, one seat. *)
Definition abc : question :=
  mkQuestion [mkAnswer "A" None None; mkAnswer "B" None None;
              mkAnswer "C" None None] 1 2 1 "Q" None None None.

(** A report for the example question: two votes for A, one for B, none
    for C. *)
Definition abc_report : json_report :=
  mkReport 3 3 ["A"]%string
    (<["A"%string := 2]> (<["B"%string := 1]> (<["C"%string := 0]> ∅))).

(** A question with one answer and a report that gives it a number of votes
    whose hundredfold no double holds exactly. *)
Definition one_answer : question :=
  mkQuestion [mkAnswer "A" None None] 0 1 1 "Q" None None None.

Definition big_report : json_report :=
  mkReport 5920956124208825 5920956124208825 ["A"]%string
    (<["A"%string := 5920956124208825]> ∅).

(** * Verification *)

(** ** The ballot aggregator *)

Section Aggregator.
Implicit Types (t : ApprovalTally) (bs : list ballot) (ans : list Z).

Lemma find_ballot_Some bs ans i :
  find_ballot bs ans = Some i →
  ∃ b, bs !! i = Some b ∧ answers b = ans ∧
       ∀ j b', (j < i)%nat → bs !! j = Some b' → answers b' ≠ ans.
Proof.
  revert i. induction bs as [|b bs IH]; intros i; simpl; [done|].
  case_decide as Hb.
  - intros [= <-]. exists b. split_and!; [done|done|]. intros j b' Hj. lia.
  - destruct (find_ballot bs ans) as [k|] eqn:Hk; simpl; [|done].
    intros [= <-]. destruct (IH k eq_refl) as (b0 & Hl & Ha & Hfirst).
    exists b0. split_and!; [done|done|].
    intros [|j] b' Hj; simpl.
    + by intros [= <-].
    + apply Hfirst. lia.
Qed.

Lemma find_ballot_None bs ans :
  find_ballot bs ans = None ↔ ∀ b, b ∈ bs → answers b ≠ ans.
Proof.
  induction bs as [|b bs IH]; simpl.
  - split; [|done]. intros _ b Hb. by apply elem_of_nil in Hb.
  - case_decide as Hb.
    + split; [done|]. intros H. exfalso. apply (H b); [left|done].
    + rewrite fmap_None, IH. split.
      * intros H b' [->|Hin]%elem_of_cons; [done|by apply H].
      * intros H b' Hin. apply H. by right.
Qed.

Lemma add_vote_dict t choices :
  answer_to_ids_dict (add_vote t choices) = answer_to_ids_dict t.
Proof.
  unfold add_vote. case_decide; [done|]. by destruct (find_ballot _ _).
Qed.

Lemma add_vote_file t choices :
  ballots_file (add_vote t choices) = ballots_file t.
Proof.
  unfold add_vote. case_decide; [done|]. by destruct (find_ballot _ _).
Qed.

Lemma add_vote_num_seats t choices :
  num_seats (add_vote t choices) = num_seats t.
Proof.
  unfold add_vote. case_decide; [done|]. by destruct (find_ballot _ _).
Qed.

Lemma add_vote_answer2id t choices a :
  answer2id (add_vote t choices) a = answer2id t a.
Proof. unfold answer2id. by rewrite add_vote_dict. Qed.

Lemma add_votes_dict t vs :
  answer_to_ids_dict (add_votes t vs) = answer_to_ids_dict t.
Proof.
  unfold add_votes. revert t. induction vs as [|v vs IH]; intros t; simpl; [done|].
  by rewrite IH, add_vote_dict.
Qed.

Lemma add_votes_file t vs :
  ballots_file (add_votes t vs) = ballots_file t.
Proof.
  unfold add_votes. revert t. induction vs as [|v vs IH]; intros t; simpl; [done|].
  by rewrite IH, add_vote_file.
Qed.

(** A vote whose id list is new is appended with one vote. *)
Lemma add_vote_fresh t choices :
  -1 ∉ map (answer2id t) choices →
  (∀ b, b ∈ ballots t → answers b ≠ map (answer2id t) choices) →
  ballots (add_vote t choices) =
  ballots t ++ [ {| votes := 1; answers := map (answer2id t) choices |} ].
Proof.
  intros Hres Hnew. unfold add_vote. rewrite decide_False by done.
  apply find_ballot_None in Hnew. by rewrite Hnew.
Qed.

(** A vote whose id list is already there increments the first ballot
    that has it. *)
Lemma add_vote_found t choices i :
  -1 ∉ map (answer2id t) choices →
  find_ballot (ballots t) (map (answer2id t) choices) = Some i →
  ballots (add_vote t choices) = alter incr_votes i (ballots t).
Proof.
  intros Hres Hi. unfold add_vote. rewrite decide_False by done.
  by rewrite Hi.
Qed.

Lemma add_votes_fresh t vs :
  (∀ v, v ∈ vs → -1 ∉ map (answer2id t) v) →
  NoDup (map answers (ballots t) ++ map (map (answer2id t)) vs) →
  ballots (add_votes t vs) = ballots t ++ map (single t) vs.
Proof.
  unfold add_votes. revert t.
  induction vs as [|v vs IH]; intros t Hres Hnd; simpl.
  - by rewrite app_nil_r.
  - assert (Hv : ballots (add_vote t v) = ballots t ++ [single t v]).
    { apply add_vote_fresh; [apply Hres; left|].
      intros b Hb Heq. apply NoDup_app in Hnd as (_ & Hdisj & _).
      apply (Hdisj (answers b)).
      - apply list_elem_of_fmap. by exists b.
      - simpl. rewrite Heq. left. }
    rewrite IH.
    + rewrite Hv, <- app_assoc. simpl. f_equal. f_equal.
      apply map_ext. intros w. unfold single. f_equal.
      apply map_ext. intros a. apply add_vote_answer2id.
    + intros w Hw. erewrite map_ext; [apply Hres; by right|].
      intros a. apply add_vote_answer2id.
    + rewrite Hv, map_app. simpl. rewrite <- app_assoc. simpl.
      erewrite (map_ext (map (answer2id (add_vote t v)))); [exact Hnd|].
      intros w. apply map_ext. intros a. apply add_vote_answer2id.
Qed.
End Aggregator.

(** C1 (as stated) fails: the encoded votes 12 and 21 decode to the same
    selection set {A, B} in different orders, and adding both yields two
    ballots with one vote each, not one ballot with two votes: the id lists
    are compared as sequences and are not normalized. *)
Lemma same_set_other_order_two_ballots :
  parse_vote 12 abc = Some ["A"; "B"]%string ∧
  parse_vote 21 abc = Some ["B"; "A"]%string ∧
  (list_to_set ["A"; "B"]%string : gset string) = list_to_set ["B"; "A"]%string ∧
  ballots (add_votes (pre_tally init abc) [["A"; "B"]; ["B"; "A"]]%string) =
    [ {| votes := 1; answers := [1; 2] |}; {| votes := 1; answers := [2; 1] |} ] ∧
  ¬ ∃ b, ballots (add_votes (pre_tally init abc) [["A"; "B"]; ["B"; "A"]]%string) = [b]
         ∧ votes b = 2.
Proof.
  split_and!.
  - by vm_compute.
  - by vm_compute.
  - set_solver.
  - by vm_compute.
  - intros (b & Hb & _). vm_compute in Hb. discriminate Hb.
Qed.

(** C1 (amended): two accepted votes whose id lists are equal as sequences
    (the same selections in the same order), added to an aggregator without
    ballots, yield exactly one ballot, with that id list and two votes. *)
Theorem same_sequence_one_ballot (t : ApprovalTally) (v1 v2 : list string) :
  ballots t = [] →
  -1 ∉ map (answer2id t) v1 →
  map (answer2id t) v1 = map (answer2id t) v2 →
  ballots (add_votes t [v1; v2]) =
    [ {| votes := 2; answers := map (answer2id t) v1 |} ].
Proof.
  intros Hempty Hres Heq. unfold add_votes. simpl.
  assert (H1 : ballots (add_vote t v1) = [single t v1]).
  { rewrite add_vote_fresh; [by rewrite Hempty|done|].
    rewrite Hempty. intros b Hb. by apply elem_of_nil in Hb. }
  assert (Hids : map (answer2id (add_vote t v1)) v2 = map (answer2id t) v1).
  { rewrite Heq. apply map_ext. intros a. apply add_vote_answer2id. }
  rewrite (add_vote_found _ _ 0%nat).
  - by rewrite H1.
  - by rewrite Hids.
  - rewrite Hids, H1. simpl. by rewrite decide_True.
Qed.

Lemma same_sequence_one_ballot_witness :
  ballots (add_votes (pre_tally init abc) [["A"; "B"]; ["A"; "B"]]%string) =
    [ {| votes := 2; answers := [1; 2] |} ].
Proof.
  apply (same_sequence_one_ballot (pre_tally init abc) ["A"; "B"]%string
           ["A"; "B"]%string).
  - reflexivity.
  - apply (bool_decide_unpack _). vm_compute. exact I.
  - reflexivity.
Defined.

(** C5: when one choice of a vote does not resolve ([answer2id] gives the
    sentinel -1, which is what a lookup miss gives), [add_vote] leaves the
    whole tally state as it was: no selection of the vote is counted. *)
Theorem add_vote_unresolved_unchanged (t : ApprovalTally)
    (choices : list string) (c : string) :
  c ∈ choices →
  answer2id t c = -1 →
  add_vote t choices = t.
Proof.
  intros Hc Hmiss. unfold add_vote. rewrite decide_True; [done|].
  rewrite <- Hmiss. apply list_elem_of_fmap. by exists c.
Qed.

Lemma add_vote_unresolved_unchanged_witness :
  add_vote (add_vote (pre_tally init abc) ["A"; "B"]%string)
           ["A"; "Z"; "B"]%string
  = add_vote (pre_tally init abc) ["A"; "B"]%string.
Proof.
  apply (add_vote_unresolved_unchanged _ _ "Z"%string).
  - apply (bool_decide_unpack _). vm_compute. exact I.
  - vm_compute. reflexivity.
Defined.

(** A lookup miss is what gives the sentinel. *)
Lemma answer2id_miss (t : ApprovalTally) (a : string) :
  answer_to_ids_dict t !! a = None → answer2id t a = -1.
Proof. unfold answer2id. by intros ->. Qed.

(** C9: votes that all resolve and whose id sets are pairwise distinct,
    added in any order to an aggregator without ballots, yield one ballot
    with one vote per vote, in the order of insertion; the number of ballots
    is the number of votes for every order. *)
Theorem add_votes_pairwise_distinct (t : ApprovalTally)
    (vs vs' : list (list string)) :
  ballots t = [] →
  (∀ v, v ∈ vs → -1 ∉ map (answer2id t) v) →
  (∀ i j v w, i ≠ j → vs !! i = Some v → vs !! j = Some w →
     (list_to_set (map (answer2id t) v) : gset Z) ≠
     list_to_set (map (answer2id t) w)) →
  vs' ≡ₚ vs →
  ballots (add_votes t vs') = map (single t) vs' ∧
  length (ballots (add_votes t vs')) = length vs ∧
  ∀ b, b ∈ ballots (add_votes t vs') → votes b = 1.
Proof.
  intros Hempty Hres Hdist Hperm.
  assert (Hnd : NoDup (map (map (answer2id t)) vs)).
  { apply NoDup_alt. intros i j ids Hi Hj.
    apply list_lookup_fmap_Some in Hi as (v & -> & Hv).
    apply list_lookup_fmap_Some in Hj as (w & Hw & Heq).
    destruct (decide (i = j)) as [|Hne]; [done|].
    exfalso. apply (Hdist i j v w Hne Hv Heq). by rewrite Hw. }
  assert (Hb : ballots (add_votes t vs') = map (single t) vs').
  { rewrite add_votes_fresh; [by rewrite Hempty| |].
    - intros v Hv. apply Hres. by rewrite <- Hperm.
    - rewrite Hempty. simpl. by rewrite Hperm. }
  split_and!; [done| |].
  - by rewrite Hb, length_map, Hperm.
  - intros b. rewrite Hb. intros (v & -> & _)%list_elem_of_fmap. done.
Qed.

Lemma add_votes_pairwise_distinct_witness :
  ballots (add_votes (pre_tally init abc) [["B"]; ["A"; "B"]; ["A"]]%string)
    = map (single (pre_tally init abc)) [["B"]; ["A"; "B"]; ["A"]]%string ∧
  length (ballots (add_votes (pre_tally init abc)
                     [["B"]; ["A"; "B"]; ["A"]]%string)) = 3%nat ∧
  ∀ b, b ∈ ballots (add_votes (pre_tally init abc)
                      [["B"]; ["A"; "B"]; ["A"]]%string) → votes b = 1.
Proof.
  apply (add_votes_pairwise_distinct (pre_tally init abc)
           [["A"]; ["B"]; ["A"; "B"]]%string).
  - reflexivity.
  - intros v Hv.
    repeat (apply elem_of_cons in Hv as [->|Hv]);
      [..|by apply elem_of_nil in Hv];
      apply (bool_decide_unpack _); vm_compute; exact I.
  - intros i j v w Hne Hi Hj.
    destruct i as [|[|[|i]]], j as [|[|[|j]]]; try done;
      simpl in Hi, Hj; simplify_eq; by vm_compute.
  - apply (bool_decide_unpack _). vm_compute. exact I.
Defined.

(** C10: for an accepted vote (every choice resolves), [add_vote] does one
    of two things and nothing else.  Either the first ballot whose id list
    equals the vote's gets one more vote, the list keeps its length and
    every other ballot stays; or no ballot has that id list and one ballot
    with one vote and that id list is appended after the unchanged ones.
    The answer-to-id dictionary, the file and the seat count stay. *)
Theorem add_vote_frame (t : ApprovalTally) (choices : list string) :
  -1 ∉ map (answer2id t) choices →
  let ans := map (answer2id t) choices in
  let t' := add_vote t choices in
  answer_to_ids_dict t' = answer_to_ids_dict t ∧
  ballots_file t' = ballots_file t ∧
  num_seats t' = num_seats t ∧
  ( (∃ i b, ballots t !! i = Some b ∧ answers b = ans ∧
            (∀ j b', (j < i)%nat → ballots t !! j = Some b' → answers b' ≠ ans) ∧
            ballots t' = <[i := {| votes := votes b + 1; answers := ans |}]> (ballots t) ∧
            length (ballots t') = length (ballots t) ∧
            ∀ j, j ≠ i → ballots t' !! j = ballots t !! j)
    ∨
    ((∀ b, b ∈ ballots t → answers b ≠ ans) ∧
     ballots t' = ballots t ++ [ {| votes := 1; answers := ans |} ] ∧
     length (ballots t') = S (length (ballots t)) ∧
     ∀ j, (j < length (ballots t))%nat → ballots t' !! j = ballots t !! j) ).
Proof.
  intros Hres ans t'. subst t'.
  rewrite add_vote_dict, add_vote_file, add_vote_num_seats.
  split_and!; [done..|].
  destruct (find_ballot (ballots t) ans) as [i|] eqn:Hfind.
  - left. destruct (find_ballot_Some _ _ _ Hfind) as (b & Hb & Hans & Hfirst).
    exists i, b. rewrite (add_vote_found t choices i Hres Hfind).
    assert (Halter : alter incr_votes i (ballots t) =
                     <[i := {| votes := votes b + 1; answers := ans |}]> (ballots t)).
    { apply list_eq. intros j. destruct (decide (i = j)) as [<-|Hne].
      - rewrite list_lookup_alter_eq, Hb. simpl.
        rewrite list_lookup_insert_eq by (by eapply lookup_lt_Some).
        unfold incr_votes. by rewrite Hans.
      - by rewrite list_lookup_alter_ne, list_lookup_insert_ne. }
    rewrite Halter. split_and!; [done..| |].
    + by rewrite length_insert.
    + intros j Hj. by rewrite list_lookup_insert_ne.
  - right. pose proof (proj1 (find_ballot_None _ _) Hfind) as Hnone.
    rewrite (add_vote_fresh t choices Hres Hnone).
    split_and!; [done..| |].
    + rewrite length_app. simpl. lia.
    + intros j Hj. by rewrite lookup_app_l.
Qed.

Lemma add_vote_frame_witness :
  let t := add_vote (pre_tally init abc) ["A"; "B"]%string in
  ∃ i b, ballots t !! i = Some b ∧
         ballots (add_vote t ["A"; "B"]%string) =
           <[i := {| votes := votes b + 1; answers := [1; 2] |}]> (ballots t).
Proof.
  intros t.
  destruct (add_vote_frame t ["A"; "B"]%string) as (_ & _ & _ & Hcases).
  - apply (bool_decide_unpack _). vm_compute. exact I.
  - destruct Hcases as [(i & b & Hb & _ & _ & Hins & _)|(Hnone & _)].
    + exists i, b. split; [exact Hb|exact Hins].
    + exfalso. apply (Hnone {| votes := 1; answers := [1; 2] |}).
      * apply (bool_decide_unpack _). vm_compute. exact I.
      * reflexivity.
Defined.

(** ** The answer index *)

Section AnswerIndex.
Implicit Types (l : list answer) (d : gmap string Z).

Lemma fill_answer_to_ids_notin l i d v :
  v ∉ map value l → fill_answer_to_ids l i d !! v = d !! v.
Proof.
  revert i d. induction l as [|a l IH]; intros i d Hv; simpl; [done|].
  simpl in Hv. apply not_elem_of_cons in Hv as [Hne Hv].
  rewrite IH by done. by rewrite lookup_insert_ne.
Qed.

Lemma fill_answer_to_ids_nodup l i d k a :
  NoDup (map value l) → l !! k = Some a →
  fill_answer_to_ids l i d !! value a = Some (i + Z.of_nat k).
Proof.
  revert i d k. induction l as [|a0 l IH]; intros i d k Hnd Hk; [done|].
  simpl in Hnd. apply NoDup_cons in Hnd as [Hnotin Hnd]. simpl.
  destruct k as [|k]; simpl in Hk.
  - injection Hk as ->. rewrite fill_answer_to_ids_notin by done.
    rewrite lookup_insert_eq. f_equal. lia.
  - rewrite (IH _ _ k) by done. f_equal. lia.
Qed.

(** Whatever the values, an answer value maps to the position of one of
    the answers that carry it. *)
Lemma fill_answer_to_ids_in l i d v :
  v ∈ map value l →
  ∃ k a, l !! k = Some a ∧ value a = v ∧
         fill_answer_to_ids l i d !! v = Some (i + Z.of_nat k).
Proof.
  revert i d. induction l as [|a0 l IH]; intros i d Hv; simpl in *.
  - by apply elem_of_nil in Hv.
  - destruct (decide (v ∈ map value l)) as [Hin|Hnotin].
    + destruct (IH (i + 1) (<[value a0:=i]> d) Hin) as (k & a & Hk & Ha & Hl).
      exists (S k), a. split_and!; [done..|]. rewrite Hl. f_equal. lia.
    + apply elem_of_cons in Hv as [->|Hv]; [|done].
      exists 0%nat, a0. split_and!; [done..|].
      rewrite fill_answer_to_ids_notin by done.
      rewrite lookup_insert_eq. f_equal. lia.
Qed.
End AnswerIndex.

(** C6: for a question whose answer values are distinct (the data model's
    invariant), the index built by [init] and [pre_tally] maps the value of
    the answer at position [i] (from 0) to the id [i + 1], so the ids are 1
    to N in answer order; a value that no answer has maps to the sentinel
    -1, which is none of the ids. *)
Theorem pre_tally_answer_index (q : question) :
  NoDup (map value (q_answers q)) →
  let t := pre_tally init q in
  (∀ i a, q_answers q !! i = Some a → answer2id t (value a) = Z.of_nat i + 1) ∧
  (∀ v, v ∈ map value (q_answers q) →
        1 <= answer2id t v <= Z.of_nat (length (q_answers q))) ∧
  (∀ v, v ∉ map value (q_answers q) → answer2id t v = -1).
Proof.
  intros Hnd t. unfold t, answer2id, pre_tally, init. simpl.
  split_and!.
  - intros i a Hi. rewrite (fill_answer_to_ids_nodup _ _ _ i) by done.
    simpl. lia.
  - intros v Hv.
    destruct (fill_answer_to_ids_in (q_answers q) 1 ∅ v Hv)
      as (k & a & Hk & _ & ->).
    simpl. apply lookup_lt_Some in Hk. lia.
  - intros v Hv. rewrite fill_answer_to_ids_notin by done.
    by rewrite lookup_empty.
Qed.

Lemma pre_tally_answer_index_witness :
  let t := pre_tally init abc in
  (∀ i a, q_answers abc !! i = Some a → answer2id t (value a) = Z.of_nat i + 1) ∧
  (∀ v, v ∈ map value (q_answers abc) →
        1 <= answer2id t v <= Z.of_nat (length (q_answers abc))) ∧
  (∀ v, v ∉ map value (q_answers abc) → answer2id t v = -1).
Proof.
  apply (pre_tally_answer_index abc).
  apply (bool_decide_unpack _). vm_compute. exact I.
Defined.

(** ** The result composer: totals *)

(** C8: whatever the report and the question, [fill_results] stores the
    report's ballot count as the total votes and the difference between the
    dirty ballot count and the ballot count as the dirty votes; a report
    with 10 ballots and 12 dirty ballots gives 2 dirty votes. *)
Theorem fill_results_totals (r : json_report) (q : question) :
  q_total_votes (fill_results r q).1 = Some (ballots_count r) ∧
  q_dirty_votes (fill_results r q).1 =
    Some (dirty_ballots_count r - ballots_count r) ∧
  ∀ ws cs, q_dirty_votes (fill_results (mkReport 10 12 ws cs) q).1 = Some 2.
Proof.
  unfold fill_results. split_and!.
  - destruct (decode_winners r); [|done]. by destruct (fill_answers _ _ _).
  - destruct (decode_winners r); [|done]. by destruct (fill_answers _ _ _).
  - intros ws cs. destruct (decode_winners _); [|done].
    by destruct (fill_answers _ _ _).
Qed.

(** ** The ballot file *)

Section Text.
Implicit Types (s : string).

Lemma str_app_cons c s1 s2 : String c s1 +:+ s2 = String c (s1 +:+ s2).
Proof. reflexivity. Qed.

Lemma str_app_nil_l s : "" +:+ s = s.
Proof. reflexivity. Qed.

Lemma str_app_assoc s1 s2 s3 : (s1 +:+ s2) +:+ s3 = s1 +:+ (s2 +:+ s3).
Proof.
  induction s1 as [|c s1 IH]; [done|]. by rewrite !str_app_cons, IH.
Qed.

Lemma str_app_nil_r s : s +:+ "" = s.
Proof. induction s as [|c s IH]; [done|]. by rewrite str_app_cons, IH. Qed.

Lemma str_length_app s1 s2 :
  String.length (s1 +:+ s2) = (String.length s1 + String.length s2)%nat.
Proof.
  induction s1 as [|c s1 IH]; [done|]. rewrite str_app_cons. simpl.
  by rewrite IH.
Qed.

Lemma write_lines_concat s (ls : list string) :
  write_lines s ls = s +:+ String.concat "" ls.
Proof.
  unfold write_lines. revert s.
  induction ls as [|l ls IH]; intros s; simpl.
  - by rewrite str_app_nil_r.
  - rewrite IH. destruct ls as [|l' ls].
    + simpl. by rewrite str_app_nil_r.
    + change (String.concat "" (l :: l' :: ls))
        with (l +:+ "" +:+ String.concat "" (l' :: ls)).
      by rewrite str_app_assoc.
Qed.

(** No newline is left in the stripped text, and dropping the newlines
    of a text is all that stripping does. *)
Lemma strip_newlines_filter s :
  list_ascii_of_string (strip_newlines s) =
  filter (λ c, c ≠ "010"%char) (list_ascii_of_string s).
Proof.
  induction s as [|c s IH]; simpl; [done|].
  destruct (Ascii.eqb_spec c "010") as [->|Hne].
  - rewrite filter_cons_False by (intros H; by apply H). done.
  - rewrite filter_cons_True by done. simpl. by rewrite IH.
Qed.
End Text.

(** C4: the text in the ballot file after [pre_tally], any number of
    [add_vote] calls and [finish_writing_ballots_file] is, in this order:
    the header line with the number of answers and the number of seats; one
    line per ballot, in the order of the ballot list, with the vote count,
    the ids separated by blanks and a closing 0; a line with only 0; one
    line per answer, in answer order, with the value between double quotes;
    and one line with the question's text, without its newlines, between
    double quotes. *)
Theorem ballots_file_contents (t : ApprovalTally) (q : question)
    (vs : list (list string)) :
  let t' := add_votes (pre_tally t q) vs in
  ballots_file (finish_writing_ballots_file t' q) =
    (py_str (Z.of_nat (length (q_answers q))) +:+ " " +:+
       py_str (q_num_seats q) +:+ nl) +:+
    String.concat ""
      (map (λ b, py_str (votes b) +:+ " " +:+
                 String.concat " " (map py_str (answers b)) +:+ " 0" +:+ nl)
           (ballots t')) +:+
    ("0" +:+ nl) +:+
    String.concat ""
      (map (λ a, dquote +:+ value a +:+ dquote +:+ nl) (q_answers q)) +:+
    (dquote +:+ strip_newlines (q_question q) +:+ dquote +:+ nl) ∧
  list_ascii_of_string (strip_newlines (q_question q)) =
    filter (λ c, c ≠ "010"%char) (list_ascii_of_string (q_question q)).
Proof.
  intros t'. split; [|apply strip_newlines_filter].
  unfold finish_writing_ballots_file. simpl.
  rewrite !write_lines_concat. unfold t'. rewrite add_votes_file. simpl.
  fold t'. unfold header_line, quoted_line, ballot_line.
  by rewrite !str_app_assoc.
Qed.

(** ** The vote decoder: validation *)

Section Distinct.
Implicit Types (l : list string).

Lemma size_list_to_set_le l :
  (size (list_to_set l : gset string) ≤ length l)%nat.
Proof.
  induction l as [|x l IH].
  - change (size (∅ : gset string) ≤ 0)%nat. by rewrite size_empty.
  - change (size ({[x]} ∪ list_to_set l : gset string) ≤ S (length l))%nat.
    destruct (decide (x ∈ (list_to_set l : gset string))) as [Hin|Hnotin].
    + rewrite (subseteq_union_1_L ({[x]} : gset string) (list_to_set l))
        by (by apply singleton_subseteq_l). lia.
    + rewrite size_union by (by apply disjoint_singleton_l).
      rewrite size_singleton. lia.
Qed.

(** [len(set(ret)) != len(ret)] holds exactly when [ret] repeats a
    selection. *)
Lemma size_list_to_set_NoDup l :
  size (list_to_set l : gset string) = length l ↔ NoDup l.
Proof.
  split; [|apply size_list_to_set].
  induction l as [|x l IH]; intros Hsize; [constructor|].
  change (size ({[x]} ∪ list_to_set l : gset string) = S (length l)) in Hsize.
  pose proof (size_list_to_set_le l) as Hle.
  destruct (decide (x ∈ (list_to_set l : gset string))) as [Hin|Hnotin].
  - rewrite (subseteq_union_1_L ({[x]} : gset string) (list_to_set l)) in Hsize
      by (by apply singleton_subseteq_l). lia.
  - rewrite size_union, size_singleton in Hsize
      by (by apply disjoint_singleton_l).
    constructor; [by rewrite elem_of_list_to_set in Hnotin|]. apply IH. lia.
Qed.
End Distinct.

(** C3: when every field of the encoded vote resolves to an answer value,
    [parse_vote] raises exactly when the number of selections is below the
    minimum or above the maximum or a selection is repeated; in every other
    case it returns the whole list of selections in the order of the
    fields. *)
Theorem parse_vote_validation (number : Z) (q : question) (ret : list string) :
  parse_fields number q = Some ret →
  (parse_vote number q = None ↔
     (Z.of_nat (length ret) < q_min q ∨ q_max q < Z.of_nat (length ret) ∨
      ¬ NoDup ret)) ∧
  (parse_vote number q ≠ None → parse_vote number q = Some ret).
Proof.
  intros Hfields. unfold parse_vote. rewrite Hfields. simpl.
  assert (Hinv : invalid_vote q ret ↔
                 (Z.of_nat (length ret) < q_min q ∨
                  q_max q < Z.of_nat (length ret) ∨ ¬ NoDup ret)).
  { unfold invalid_vote. rewrite <- size_list_to_set_NoDup. split.
    - intros [H|[H|H]]; [by left|right; left; lia|by right; right].
    - intros [H|[H|H]]; [by left|right; left; lia|by right; right]. }
  case_decide as Hdec; split.
  - split; [intros _; by apply Hinv|done].
  - done.
  - split; [done|]. intros H. exfalso. apply Hdec. by apply Hinv.
  - done.
Qed.

Lemma parse_vote_validation_witness :
  (parse_vote 12 abc = None ↔
     (Z.of_nat (length ["A"; "B"]%string) < q_min abc ∨
      q_max abc < Z.of_nat (length ["A"; "B"]%string) ∨
      ¬ NoDup ["A"; "B"]%string)) ∧
  (parse_vote 12 abc ≠ None → parse_vote 12 abc = Some ["A"; "B"]%string).
Proof.
  apply (parse_vote_validation 12 abc ["A"; "B"]%string).
  vm_compute. reflexivity.
Defined.

(** ** The vote decoder: fields *)

Section Digits.
Implicit Types (s : string) (d : Decimal.uint).

Lemma all_digits_app s1 s2 :
  all_digits (s1 +:+ s2) = all_digits s1 && all_digits s2.
Proof.
  induction s1 as [|c s1 IH]; [done|]. rewrite str_app_cons. simpl.
  by rewrite IH, andb_assoc.
Qed.

Lemma all_digits_str_mul k : all_digits (str_mul "0" k) = true.
Proof. induction k as [|k IH]; [done|]. simpl. by rewrite all_digits_app, IH. Qed.

Lemma length_str_mul k : String.length (str_mul "0" k) = k.
Proof.
  induction k as [|k IH]; [done|]. simpl. by rewrite str_length_app, IH.
Qed.

Lemma all_digits_substring n m s :
  all_digits s = true → all_digits (substring n m s) = true.
Proof.
  revert n m. induction s as [|c s IH]; intros n m Hs.
  - by destruct n, m.
  - simpl in Hs. apply andb_true_iff in Hs as [Hc Hs].
    destruct n as [|n]; [destruct m as [|m]|]; simpl; [done| |by apply IH].
    by rewrite Hc, IH.
Qed.

Lemma length_substring n m s :
  (n + m ≤ String.length s)%nat → String.length (substring n m s) = m.
Proof.
  revert n m. induction s as [|c s IH]; intros n m Hlen; simpl in Hlen.
  - destruct n, m; simpl; lia.
  - destruct n as [|n]; [destruct m as [|m]|]; simpl; [done| |].
    + rewrite IH; lia.
    + apply IH. lia.
Qed.

Lemma all_digits_string_of_uint d :
  all_digits (NilEmpty.string_of_uint d) = true.
Proof. induction d; simpl; by rewrite ?IHd. Qed.

Lemma all_digits_py_str z : 0 <= z → all_digits (py_str z) = true.
Proof.
  intros Hz. unfold py_str. destruct z as [|p|p]; [done| |lia].
  simpl. unfold NilZero.string_of_uint.
  destruct (Pos.to_uint p); [done|apply (all_digits_string_of_uint (_ _))..].
Qed.

Lemma length_py_str z : (1 ≤ String.length (py_str z))%nat.
Proof.
  assert (Hu : ∀ d, (1 ≤ String.length (NilZero.string_of_uint d))%nat).
  { intros d. destruct d; simpl; lia. }
  unfold py_str. destruct z as [|p|p]; simpl; [lia|apply Hu|lia].
Qed.

Lemma uint_of_string_digits s :
  all_digits s = true → is_Some (NilEmpty.uint_of_string s).
Proof.
  induction s as [|c s IH]; simpl; [by eexists|].
  intros [Hc Hs]%andb_true_iff. destruct (IH Hs) as [d ->].
  destruct c as [[|] [|] [|] [|] [|] [|] [|] [|]];
    try discriminate Hc; by eexists.
Qed.

(** [int] of a text of one or more digits is a natural number. *)
Lemma py_int_digits s :
  all_digits s = true → s ≠ ""%string → ∃ k, py_int s = Some k ∧ 0 <= k.
Proof.
  intros Hs Hne. destruct s as [|c s]; [done|].
  destruct (uint_of_string_digits _ Hs) as [d Hd].
  exists (Z.of_int (Decimal.Pos d)). unfold py_int, NilZero.int_of_string.
  assert (Hc : Ascii.eqb c "-" = false).
  { simpl in Hs. apply andb_true_iff in Hs as [Hc _].
    apply Ascii.eqb_neq. intros ->. discriminate Hc. }
  rewrite Hc. unfold NilZero.uint_of_string. rewrite Hd. simpl.
  split; [done|]. apply N2Z.is_nonneg.
Qed.
End Digits.

Section DecimalDigits.
Implicit Types (d : Decimal.uint) (p : positive).

Lemma of_lu_lt d : (DecimalPos.Unsigned.of_lu d < 10 ^ DecimalPos.Unsigned.usize d)%N.
Proof.
  induction d; cbn [DecimalPos.Unsigned.of_lu DecimalPos.Unsigned.usize];
    rewrite ?N.pow_succ_r'; [done|lia..].
Qed.

Lemma usize_revapp d d' :
  DecimalPos.Unsigned.usize (Decimal.revapp d d') =
  (DecimalPos.Unsigned.usize d + DecimalPos.Unsigned.usize d')%N.
Proof.
  revert d'. induction d; intros d'; cbn [Decimal.revapp DecimalPos.Unsigned.usize];
    [done|rewrite IHd; cbn [DecimalPos.Unsigned.usize]; lia..].
Qed.

Lemma usize_length d :
  DecimalPos.Unsigned.usize d = N.of_nat (String.length (NilEmpty.string_of_uint d)).
Proof.
  induction d; cbn [DecimalPos.Unsigned.usize NilEmpty.string_of_uint String.length];
    [done|rewrite IHd; lia..].
Qed.

(** A decimal numeral that starts with a digit other than 0 and has [k]
    digits denotes a number from [10^(k-1)] up to [10^k - 1]. *)
Lemma of_uint_bounds d :
  d ≠ Decimal.Nil → (∀ d', d ≠ Decimal.D0 d') →
  (10 ^ (DecimalPos.Unsigned.usize d - 1) <= Pos.of_uint d < 10 ^ DecimalPos.Unsigned.usize d)%N.
Proof.
  intros Hnil H0.
  destruct d as [|d|d|d|d|d|d|d|d|d|d]; [done|by destruct (H0 d)|..];
    cbn [Pos.of_uint DecimalPos.Unsigned.usize];
    rewrite DecimalPos.Unsigned.of_uint_acc_rev;
    pose proof (of_lu_lt (Decimal.rev d)) as Hlt;
    unfold Decimal.rev in Hlt; rewrite usize_revapp in Hlt;
    cbn [DecimalPos.Unsigned.usize] in Hlt; rewrite N.add_0_r in Hlt;
    unfold Decimal.rev;
    replace (N.succ (DecimalPos.Unsigned.usize d) - 1)%N with (DecimalPos.Unsigned.usize d) by lia;
    rewrite N.pow_succ_r'; lia.
Qed.

Lemma to_uint_head p :
  Pos.to_uint p ≠ Decimal.Nil ∧ ∀ d', Pos.to_uint p ≠ Decimal.D0 d'.
Proof.
  split; [apply DecimalPos.Unsigned.to_uint_nonnil|]. intros d' Hd.
  pose proof (DecimalPos.Unsigned.to_of (Pos.to_uint p)) as Hnorm.
  rewrite DecimalPos.Unsigned.of_to in Hnorm. cbn [N.to_uint] in Hnorm.
  rewrite Hd in Hnorm.
  assert (Hcases : d' = Decimal.Nil ∨ d' ≠ Decimal.Nil)
    by (destruct d'; (by left) || (by right)).
  destruct Hcases as [->|Hd'].
  - by apply (DecimalPos.Unsigned.to_uint_nonzero p).
  - pose proof (nb_digits_unorm d' Hd') as Hle.
    change (unorm (Decimal.D0 d')) with (unorm d') in Hnorm.
    rewrite <- Hnorm in Hle. cbn [nb_digits] in Hle. lia.
Qed.

(** The length of [str(z)] is the number of decimal digits of [z]. *)
Lemma length_py_str_digits z :
  0 < z →
  10 ^ (Z.of_nat (String.length (py_str z)) - 1) <= z <
  10 ^ Z.of_nat (String.length (py_str z)).
Proof.
  intros Hz. destruct z as [|p|p]; [lia| |lia].
  destruct (to_uint_head p) as [Hnil H0].
  pose proof (of_uint_bounds (Pos.to_uint p) Hnil H0) as Hb.
  rewrite DecimalPos.Unsigned.of_to, usize_length in Hb.
  assert (Hstr : py_str (Zpos p) = NilEmpty.string_of_uint (Pos.to_uint p)).
  { unfold py_str. cbn [Z.to_int NilZero.string_of_int].
    unfold NilZero.string_of_uint. by destruct (Pos.to_uint p). }
  rewrite Hstr. set (k := String.length _) in *.
  assert (Hk : (0 < k)%nat).
  { unfold k. destruct (Pos.to_uint p); cbn; (done || lia). }
  destruct Hb as [Hlo Hhi].
  apply N2Z.inj_le in Hlo. apply N2Z.inj_lt in Hhi.
  rewrite N2Z.inj_pow in Hlo, Hhi. rewrite N2Z.inj_sub in Hlo by lia.
  rewrite nat_N_Z in Hlo, Hhi. done.
Qed.

(** [int(str(z))] is [z]. *)
Lemma py_int_py_str z : py_int (py_str z) = Some z.
Proof.
  unfold py_int, py_str. rewrite NilZero.isi.
  - simpl. f_equal. apply DecimalZ.of_to.
  - destruct z as [|p|p]; cbn [Z.to_int]; [done| |done].
    intros [= Hp]. by apply (DecimalPos.Unsigned.to_uint_nonnil p).
  - destruct z as [|p|p]; cbn [Z.to_int]; [done|done|].
    intros [= Hp]. by apply (DecimalPos.Unsigned.to_uint_nonnil p).
Qed.
End DecimalDigits.

Section Padding.
Implicit Types (s : string) (tab len : nat).

Lemma num_zeros_multiple tab len :
  (0 < tab)%nat → ((num_zeros tab len + len) mod tab = 0)%nat.
Proof.
  intros Htab. unfold num_zeros.
  pose proof (Nat.mod_upper_bound len tab ltac:(lia)) as Hr.
  pose proof (Nat.div_mod_eq len tab) as Hlen.
  destruct (decide (len mod tab = 0)%nat) as [H0|Hn0].
  - rewrite H0, Nat.sub_0_r, Nat.Div0.mod_same. simpl. done.
  - rewrite (Nat.mod_small (tab - len mod tab)) by lia.
    replace (tab - len mod tab + len)%nat with ((1 + len / tab) * tab)%nat
      by nia.
    apply Nat.Div0.mod_mul.
Qed.

(** The padding of lines 85-87, with and without its guard. *)
Lemma pad_vote_zeros tab s :
  (0 < tab)%nat →
  pad_vote tab s = str_mul "0" (num_zeros tab (String.length s)) +:+ s.
Proof.
  intros Htab. unfold pad_vote. case_decide as Hmod; [done|].
  assert (H0 : (String.length s mod tab = 0)%nat) by lia.
  unfold num_zeros. by rewrite H0, Nat.sub_0_r, Nat.Div0.mod_same.
Qed.

Lemma length_pad_vote tab s :
  (0 < tab)%nat →
  String.length (pad_vote tab s) =
    (String.length (pad_vote tab s) / tab * tab)%nat.
Proof.
  intros Htab. rewrite pad_vote_zeros by done.
  rewrite str_length_app, length_str_mul.
  pose proof (num_zeros_multiple tab (String.length s) Htab) as Hmod.
  pose proof (Nat.div_mod_eq (num_zeros tab (String.length s) + String.length s) tab).
  lia.
Qed.

Lemma all_digits_pad_vote tab s :
  (0 < tab)%nat → all_digits s = true → all_digits (pad_vote tab s) = true.
Proof.
  intros Htab Hs. rewrite pad_vote_zeros by done.
  by rewrite all_digits_app, all_digits_str_mul, Hs.
Qed.

(** Every field of a padded text of digits is a natural number. *)
Lemma field_option_digits tab s i :
  (0 < tab)%nat → all_digits s = true →
  (i < String.length s / tab)%nat →
  ∃ k, 0 <= k ∧
       String.length (py_slice s (i * tab) ((i + 1) * tab)) = tab ∧
       py_int (py_slice s (i * tab) ((i + 1) * tab)) = Some k ∧
       field_option tab s i = Some (k - 1).
Proof.
  intros Htab Hs Hi.
  assert (Hlen : String.length (py_slice s (i * tab) ((i + 1) * tab)) = tab).
  { unfold py_slice. rewrite length_substring; [lia|].
    pose proof (Nat.Div0.mul_div_le (String.length s) tab). nia. }
  destruct (py_int_digits (py_slice s (i * tab) ((i + 1) * tab)))
    as (k & Hk & Hk0).
  - by apply all_digits_substring.
  - intros Hempty. rewrite Hempty in Hlen. simpl in Hlen. lia.
  - exists k. split_and!; [done..|]. unfold field_option. by rewrite Hk.
Qed.
End Padding.

(** C2: for a non-negative encoded vote, the field width is the length of
    the decimal text of the number of answers plus two, which is the number
    of its decimal digits; the decimal text of
    the vote gets [(width - len % width) % width] zeros in front, which makes
    its length a multiple of the width; every field of that width is a
    natural number, taken less one; the loop over the fields raises exactly
    when a field less one is negative or at least the number of answers, and
    then the whole vote is refused; otherwise the loop gives, field by
    field, the value of the answer at that index. *)
Theorem parse_fields_spec (number : Z) (q : question) :
  0 <= number →
  let tab := tab_size q in
  let vote_str := pad_vote tab (py_str number) in
  let n := (String.length vote_str / tab)%nat in
  let count := Z.of_nat (length (q_answers q)) in
  tab = String.length (py_str (count + 2)) ∧
  10 ^ (Z.of_nat tab - 1) <= count + 2 < 10 ^ Z.of_nat tab ∧
  vote_str =
    str_mul "0" ((tab - String.length (py_str number) mod tab) mod tab)
    +:+ py_str number ∧
  String.length vote_str = (n * tab)%nat ∧
  (∀ i, (i < n)%nat →
     ∃ k, 0 <= k ∧
          String.length (py_slice vote_str (i * tab) ((i + 1) * tab)) = tab ∧
          py_int (py_slice vote_str (i * tab) ((i + 1) * tab)) = Some k ∧
          field_option tab vote_str i = Some (k - 1)) ∧
  (parse_fields number q = None ↔
     ∃ i opt, (i < n)%nat ∧ field_option tab vote_str i = Some opt ∧
              (opt < 0 ∨ count <= opt)) ∧
  (parse_fields number q = None → parse_vote number q = None) ∧
  (∀ ret, parse_fields number q = Some ret →
     length ret = n ∧
     ∀ i, (i < n)%nat →
       ∃ opt a, field_option tab vote_str i = Some opt ∧
                0 <= opt < count ∧
                q_answers q !! Z.to_nat opt = Some a ∧
                ret !! i = Some (value a)).
Proof.
  intros Hnum tab vote_str n count.
  assert (Htab : (0 < tab)%nat).
  { unfold tab, tab_size. pose proof (length_py_str (count + 2)). unfold count in *. lia. }
  assert (Hdigits : all_digits vote_str = true).
  { apply all_digits_pad_vote; [done|by apply all_digits_py_str]. }
  assert (Hfield : ∀ i, (i < n)%nat →
     ∃ k, 0 <= k ∧
          String.length (py_slice vote_str (i * tab) ((i + 1) * tab)) = tab ∧
          py_int (py_slice vote_str (i * tab) ((i + 1) * tab)) = Some k ∧
          field_option tab vote_str i = Some (k - 1)).
  { intros i Hi. by apply field_option_digits. }
  assert (Hturn : ∀ i opt, field_option tab vote_str i = Some opt →
     (parse_field q tab vote_str i = None ↔ (opt < 0 ∨ count <= opt)) ∧
     ∀ v, parse_field q tab vote_str i = Some v →
          0 <= opt < count ∧
          ∃ a, q_answers q !! Z.to_nat opt = Some a ∧ v = value a).
  { intros i opt Hopt. unfold parse_field. rewrite Hopt. simpl.
    fold count. repeat case_decide.
    - split; [split; [by left|done]|done].
    - destruct (lookup_lt_is_Some_2 (q_answers q) (Z.to_nat opt)) as [a Ha];
        [unfold count in *; lia|].
      rewrite Ha. simpl. split; [split; [done|lia]|].
      intros v [= <-]. split; [lia|]. by exists a.
    - split; [split; [intros _; right; lia|done]|done]. }
  split_and!; [done|apply length_py_str_digits; lia..
              |by apply pad_vote_zeros|by apply length_pad_vote|done| | |].
  - unfold parse_fields. fold tab vote_str n. rewrite mapM_None, Exists_exists.
    split.
    + intros (i & Hi & Hnone). apply elem_of_seq in Hi.
      destruct (Hfield i) as (k & _ & _ & _ & Hk); [lia|].
      exists i, (k - 1). split_and!; [lia|done|]. by apply (Hturn i).
    + intros (i & opt & Hi & Hopt & Hbad). exists i. split.
      * apply elem_of_seq. lia.
      * by apply (Hturn i opt).
  - intros Hnone. unfold parse_vote. by rewrite Hnone.
  - intros ret Hret. unfold parse_fields in Hret. fold tab vote_str n in Hret.
    apply mapM_Some in Hret. split.
    + apply Forall2_length in Hret. by rewrite length_seq in Hret.
    + intros i Hi. destruct (Hfield i Hi) as (k & _ & _ & _ & Hk).
      destruct (Forall2_lookup_l _ _ _ i i Hret) as (v & Hv & Hpf).
      { by apply lookup_seq_lt. }
      destruct (proj2 (Hturn i (k - 1) Hk) v Hpf) as (Hrange & a & Ha & ->).
      by exists (k - 1), a.
Qed.

Lemma parse_fields_spec_witness :
  parse_fields 44 abc = None ∧ parse_vote 44 abc = None ∧
  ∃ i opt, (i < 2)%nat ∧ field_option 1 "44" i = Some opt ∧
           (opt < 0 ∨ 3 <= opt).
Proof.
  destruct (parse_fields_spec 44 abc) as (_ & _ & _ & _ & _ & Hnone & Hvote & _).
  - lia.
  - assert (H : parse_fields 44 abc = None) by (vm_compute; reflexivity).
    split_and!; [exact H|exact (Hvote H)|exact (proj1 Hnone H)].
Defined.

(** ** The result composer: percentages *)

Section Floats.
Implicit Types (p m : positive) (z e n d : Z).

Lemma digits2_pos_bounds p :
  2 ^ (Zpos (digits2_pos p) - 1) <= Zpos p < 2 ^ Zpos (digits2_pos p).
Proof.
  induction p as [p IH|p IH|]; simpl digits2_pos.
  - rewrite Pos2Z.inj_succ. replace (Z.succ (Zpos (digits2_pos p)) - 1)
      with (Z.succ (Zpos (digits2_pos p) - 1)) by lia.
    rewrite !Z.pow_succ_r by lia. lia.
  - rewrite Pos2Z.inj_succ. replace (Z.succ (Zpos (digits2_pos p)) - 1)
      with (Z.succ (Zpos (digits2_pos p) - 1)) by lia.
    rewrite !Z.pow_succ_r by lia. lia.
  - simpl. lia.
Qed.

Lemma Zdigits2_eq z d :
  2 ^ (d - 1) <= z < 2 ^ d → 0 < d → Zdigits2 z = d.
Proof.
  intros Hz Hd.
  assert (0 < z) by (pose proof (Z.pow_pos_nonneg 2 (d - 1)); lia).
  destruct z as [|p|p]; [lia| |lia]. simpl.
  pose proof (digits2_pos_bounds p) as Hp.
  destruct (Z.lt_trichotomy (Zpos (digits2_pos p)) d) as [Hlt|[Heq|Hgt]]; [|done|].
  - assert (2 ^ Zpos (digits2_pos p) <= 2 ^ (d - 1))
      by (apply Z.pow_le_mono_r; lia). lia.
  - assert (2 ^ d <= 2 ^ (Zpos (digits2_pos p) - 1))
      by (apply Z.pow_le_mono_r; lia). lia.
Qed.

Lemma Zdigits2_bounds z :
  0 < z → 0 < Zdigits2 z ∧ 2 ^ (Zdigits2 z - 1) <= z < 2 ^ Zdigits2 z.
Proof.
  intros Hz. destruct z as [|p|p]; [lia| |lia]. simpl.
  split; [lia|apply digits2_pos_bounds].
Qed.

Lemma iter_pos_nat {A} (f : A → A) p (x : A) :
  SpecFloat.iter_pos f p x = Nat.iter (Pos.to_nat p) f x.
Proof.
  revert x. induction p as [p IH|p IH|]; intros x; cbn [SpecFloat.iter_pos].
  - rewrite !IH. rewrite Pos2Nat.inj_xI.
    replace (S (2 * Pos.to_nat p))%nat with (Pos.to_nat p + (Pos.to_nat p + 1))%nat by lia.
    rewrite !Nat.iter_add. simpl. done.
  - rewrite !IH. rewrite Pos2Nat.inj_xO.
    replace (2 * Pos.to_nat p)%nat with (Pos.to_nat p + Pos.to_nat p)%nat by lia.
    by rewrite Nat.iter_add.
  - done.
Qed.

Lemma shr_1_exact z :
  0 <= z →
  shr_1 {| shr_m := 2 * z; shr_r := false; shr_s := false |} =
  {| shr_m := z; shr_r := false; shr_s := false |}.
Proof. intros Hz. by destruct z as [|p|p]; [..|lia]. Qed.

Lemma iter_shr_1_exact (k : nat) z :
  0 <= z →
  Nat.iter k shr_1 {| shr_m := z * 2 ^ Z.of_nat k; shr_r := false; shr_s := false |} =
  {| shr_m := z; shr_r := false; shr_s := false |}.
Proof.
  intros Hz. induction k as [|k IH].
  - simpl. by rewrite Z.mul_1_r.
  - rewrite Nat.iter_succ_r.
    replace (z * 2 ^ Z.of_nat (S k)) with (2 * (z * 2 ^ Z.of_nat k)).
    + rewrite shr_1_exact; [done|]. apply Z.mul_nonneg_nonneg; [done|].
      apply Z.pow_nonneg. lia.
    + rewrite Nat2Z.inj_succ, Z.pow_succ_r by lia. lia.
Qed.

Lemma shr_exact z e n :
  0 <= z → 0 <= n →
  shr {| shr_m := z * 2 ^ n; shr_r := false; shr_s := false |} e n =
  ({| shr_m := z; shr_r := false; shr_s := false |}, e + n).
Proof.
  intros Hz Hn. destruct n as [|p|p]; [|clear Hn|lia].
  - simpl. rewrite Z.mul_1_r. f_equal. lia.
  - unfold shr. rewrite iter_pos_nat. f_equal.
    rewrite <- (positive_nat_Z p) at 1. by apply iter_shr_1_exact.
Qed.

Lemma fexp_normal e : -1021 <= e → fexp prec emax e = e - 53.
Proof. intros He. unfold fexp, emin, prec, emax. lia. Qed.

(** Rounding a 53-bit mantissa followed by [n] zero bits is exact. *)
Lemma binary_round_aux_exact z n e :
  2 ^ 52 <= z < 2 ^ 53 → 0 <= n → -1074 <= e <= 971 →
  binary_round_aux prec emax false (z * 2 ^ n) (e - n) loc_Exact =
  S754_finite false (Z.to_pos z) e.
Proof.
  intros Hz Hn He. unfold binary_round_aux, shr_fexp.
  assert (Hd : Zdigits2 (z * 2 ^ n) = 53 + n).
  { apply Zdigits2_eq; [|lia].
    replace (53 + n - 1) with (52 + n) by lia.
    rewrite !Z.pow_add_r by lia.
    pose proof (Z.pow_pos_nonneg 2 n ltac:(lia) Hn). nia. }
  rewrite Hd, fexp_normal by lia.
  replace (53 + n + (e - n) - 53 - (e - n)) with n by lia.
  cbn [shr_record_of_loc]. rewrite shr_exact by lia.
  cbn [shr_m loc_of_shr_record round_nearest_even].
  rewrite (Zdigits2_eq z 53) by (done || lia).
  rewrite fexp_normal by lia.
  replace (53 + (e - n + n) - 53 - (e - n + n)) with 0 by lia.
  cbn [shr shr_m shr_record_of_loc].
  destruct z as [|p|p]; [lia| |lia].
  replace (e - n + n) with e by lia.
  unfold emax, prec. destruct (Z.leb_spec e (1024 - 53)); [done|lia].
Qed.

Lemma Pos_iter_xO p k : Zpos (Pos.iter xO p k) = Zpos p * 2 ^ Zpos k.
Proof.
  rewrite <- Z.shiftl_mul_pow2 by lia. simpl.
  apply (Pos.iter_swap_gen _ _ Zpos xO (Z.mul 2)). intros a. done.
Qed.

Lemma norm_m_bounds z :
  0 < z < 2 ^ 53 → 0 < Zdigits2 z <= 53 ∧ 2 ^ 52 <= norm_m z < 2 ^ 53.
Proof.
  intros Hz. destruct (Zdigits2_bounds z) as [Hd Hb]; [lia|].
  assert (Hd53 : Zdigits2 z <= 53).
  { destruct (Z.le_gt_cases (Zdigits2 z) 53) as [|Hgt]; [done|].
    assert (2 ^ 53 <= 2 ^ (Zdigits2 z - 1)) by (apply Z.pow_le_mono_r; lia).
    lia. }
  split; [lia|]. unfold norm_m.
  pose proof (Z.pow_pos_nonneg 2 (53 - Zdigits2 z) ltac:(lia) ltac:(lia)).
  replace (2 ^ 52) with (2 ^ (Zdigits2 z - 1) * 2 ^ (53 - Zdigits2 z))
    by (rewrite <- Z.pow_add_r by lia; f_equal; lia).
  replace (2 ^ 53) with (2 ^ Zdigits2 z * 2 ^ (53 - Zdigits2 z))
    by (rewrite <- Z.pow_add_r by lia; f_equal; lia).
  nia.
Qed.

Lemma binary_normalize_exact z :
  0 < z < 2 ^ 53 →
  binary_normalize prec emax z 0 false =
  S754_finite false (Z.to_pos (norm_m z)) (norm_e z).
Proof.
  intros Hz. destruct (norm_m_bounds z Hz) as [Hd Hm].
  destruct z as [|p|p]; [lia| |lia].
  unfold binary_normalize, binary_round.
  change (Zpos (digits2_pos p)) with (Zdigits2 (Zpos p)).
  rewrite Z.add_0_r, fexp_normal by lia.
  assert (Hal : ∃ mz,
    shl_align p 0 (Zdigits2 (Zpos p) - 53) = (mz, norm_e (Zpos p)) ∧
    Zpos mz = norm_m (Zpos p)).
  { unfold shl_align, norm_m, norm_e. rewrite Z.sub_0_r.
    destruct (Zdigits2 (Zpos p) - 53) as [|k|k] eqn:Hk; [|lia|].
    - exists p. split; [f_equal; lia|].
      replace (53 - Zdigits2 (Zpos p)) with 0 by lia. lia.
    - exists (Pos.iter xO p k). split; [done|].
      rewrite Pos_iter_xO. f_equal. f_equal. lia. }
  destruct Hal as (mz & -> & Hmz). rewrite Hmz.
  pose proof (binary_round_aux_exact (norm_m (Zpos p)) 0 (norm_e (Zpos p))) as H.
  rewrite Z.mul_1_r, Z.sub_0_r in H. apply H; [done|lia|unfold norm_e; lia].
Qed.

Lemma Zdigits2_mono z1 z2 : 0 < z1 <= z2 → Zdigits2 z1 <= Zdigits2 z2.
Proof.
  intros Hz. destruct (Zdigits2_bounds z1) as [Hd1 Hb1]; [lia|].
  destruct (Zdigits2_bounds z2) as [Hd2 Hb2]; [lia|].
  destruct (Z.le_gt_cases (Zdigits2 z1) (Zdigits2 z2)) as [|Hgt]; [done|].
  assert (2 ^ Zdigits2 z2 <= 2 ^ (Zdigits2 z1 - 1))
    by (apply Z.pow_le_mono_r; lia). lia.
Qed.

(** [c * 100.0] is exact as long as the product is below 2^53. *)
Lemma SFmul_hundred_exact c :
  0 < c → 100 * c < 2 ^ 53 →
  SFmul prec emax (S754_finite false (Z.to_pos (norm_m c)) (norm_e c)) hundred =
  S754_finite false (Z.to_pos (norm_m (100 * c))) (norm_e (100 * c)).
Proof.
  intros Hc Hcc.
  destruct (norm_m_bounds c) as [Hdc Hmc]; [lia|].
  destruct (norm_m_bounds (100 * c)) as [Hdx Hmx]; [lia|].
  pose proof (Zdigits2_mono c (100 * c) ltac:(lia)) as Hmono.
  unfold hundred, SFmul. cbn [xorb].
  rewrite Pos2Z.inj_mul, Z2Pos.id by lia.
  set (n := 46 + Zdigits2 (100 * c) - Zdigits2 c).
  replace (norm_m c * 7036874417766400) with (norm_m (100 * c) * 2 ^ n).
  - replace (norm_e c + -46) with (norm_e (100 * c) - n)
      by (unfold norm_e, n; lia).
    apply binary_round_aux_exact; [done|unfold n; lia|unfold norm_e; lia].
  - unfold norm_m, n.
    change 7036874417766400 with (100 * 2 ^ 46).
    rewrite <- !Z.mul_assoc. rewrite <- Z.pow_add_r by lia.
    replace (53 - Zdigits2 (100 * c) + (46 + Zdigits2 (100 * c) - Zdigits2 c))
      with (53 - Zdigits2 c + 46) by lia.
    rewrite Z.pow_add_r by lia. lia.
Qed.

Lemma new_location_exact nb : new_location nb 0 = loc_Exact.
Proof.
  unfold new_location, new_location_even, new_location_odd.
  by destruct (Z.even nb).
Qed.

Lemma loc_of_shr_record_of_loc z l :
  loc_of_shr_record (shr_record_of_loc z l) = l ∧
  shr_m (shr_record_of_loc z l) = z.
Proof. by destruct l as [|[]]. Qed.

Lemma round_nearest_even_cases z l :
  round_nearest_even z l = z ∨
  (round_nearest_even z l = z + 1 ∧ l ≠ loc_Exact).
Proof.
  destruct l as [|[]]; simpl; [by left|..|by left|by right].
  destruct (Z.even z); [by left|by right].
Qed.

(** The first shift of [binary_round_aux] on a quotient of 53 or 54 bits:
    what is kept stays below every even bound of the quotient, and so does
    its successor when bits were dropped. *)
Lemma shr_fexp_quotient q e l :
  2 ^ 52 <= q < 2 ^ 54 → -1021 <= e →
  ∃ mrs j,
    shr_fexp prec emax q e l = (mrs, e + j) ∧ 0 <= j <= 1 ∧
    2 ^ 52 <= shr_m mrs < 2 ^ 53 ∧
    ∀ U, Z.even U = true → q <= U → (l ≠ loc_Exact → q < U) →
         shr_m mrs * 2 ^ j <= U ∧
         (loc_of_shr_record mrs ≠ loc_Exact → (shr_m mrs + 1) * 2 ^ j <= U).
Proof.
  intros Hq He. unfold shr_fexp.
  destruct (Z.lt_ge_cases q (2 ^ 53)) as [Hlt|Hge].
  - rewrite (Zdigits2_eq q 53) by lia. rewrite fexp_normal by lia.
    replace (53 + e - 53 - e) with 0 by lia. cbn [shr].
    destruct (loc_of_shr_record_of_loc q l) as [Hl Hm].
    exists (shr_record_of_loc q l), 0. rewrite Hl, Hm, Z.add_0_r.
    split_and!; [done|lia|lia|lia|lia|]. intros U _ HU HUl.
    rewrite Z.pow_0_r, !Z.mul_1_r. split; [done|].
    intros Hne. specialize (HUl Hne). lia.
  - rewrite (Zdigits2_eq q 54) by lia. rewrite fexp_normal by lia.
    replace (54 + e - 53 - e) with 1 by lia.
    cbn [shr SpecFloat.iter_pos].
    exists (shr_1 (shr_record_of_loc q l)), 1.
    split_and!; [done|lia|lia|..].
    + destruct q as [|[p|p|]|]; try lia; destruct l as [|[]]; simpl; lia.
    + destruct q as [|[p|p|]|]; try lia; destruct l as [|[]]; simpl; lia.
    + intros U HU HqU HUl.
      apply Z.even_spec in HU. destruct HU as [u ->].
      destruct q as [|[p|p|]|]; try lia; destruct l as [|[]]; simpl;
        (split; [|try done; intros _]);
        try (assert (Zpos p~0 < 2 * u) by (apply HUl; done));
        try (assert (Zpos p~1 < 2 * u) by (apply HUl; done)); lia.
Qed.

(** The second shift of [binary_round_aux], after the rounding. *)
Lemma shr_fexp_rounded z e :
  2 ^ 52 <= z <= 2 ^ 53 → -1021 <= e →
  ∃ m j,
    shr_fexp prec emax z e loc_Exact =
      ({| shr_m := Zpos m; shr_r := false; shr_s := false |}, e + j) ∧
    0 <= j <= 1 ∧ 2 ^ 52 <= Zpos m < 2 ^ 53 ∧ Zpos m * 2 ^ j = z.
Proof.
  intros Hz He. unfold shr_fexp. cbn [shr_record_of_loc].
  destruct (Z.lt_ge_cases z (2 ^ 53)) as [Hlt|Hge].
  - rewrite (Zdigits2_eq z 53) by lia. rewrite fexp_normal by lia.
    replace (53 + e - 53 - e) with 0 by lia. cbn [shr].
    exists (Z.to_pos z), 0. rewrite Z2Pos.id, Z.add_0_r by lia.
    split_and!; [done|lia..].
  - assert (z = 2 ^ 53) as -> by lia.
    rewrite (Zdigits2_eq (2 ^ 53) 54) by lia. rewrite fexp_normal by lia.
    replace (54 + e - 53 - e) with 1 by lia.
    exists (Z.to_pos (2 ^ 52)), 1. split_and!; [done|lia..].
Qed.

(** Rounding a quotient of 53 or 54 bits to nearest even gives a finite
    double that stays below every even bound of the exact quotient. *)
Lemma binary_round_aux_quotient q e l :
  2 ^ 52 <= q < 2 ^ 54 → -1021 <= e <= 900 →
  ∃ m j,
    binary_round_aux prec emax false q e l = S754_finite false m (e + j) ∧
    0 <= j <= 2 ∧ 2 ^ 52 <= Zpos m < 2 ^ 53 ∧
    ∀ U, Z.even U = true → q <= U → (l ≠ loc_Exact → q < U) →
         Zpos m * 2 ^ j <= U.
Proof.
  intros Hq He. unfold binary_round_aux.
  destruct (shr_fexp_quotient q e l Hq ltac:(lia))
    as (mrs & j1 & -> & Hj1 & Hm1 & HU1).
  set (z := round_nearest_even (shr_m mrs) (loc_of_shr_record mrs)).
  assert (Hz : z = shr_m mrs ∨
               (z = shr_m mrs + 1 ∧ loc_of_shr_record mrs ≠ loc_Exact))
    by apply round_nearest_even_cases.
  destruct (shr_fexp_rounded z (e + j1)) as (m & j2 & -> & Hj2 & Hm & Hmz);
    [lia|lia|].
  cbn [shr_m]. exists m, (j1 + j2).
  unfold emax, prec. destruct (Z.leb_spec (e + j1 + j2) (1024 - 53)); [|lia].
  split_and!; [f_equal; lia|lia|lia|lia|lia|].
  intros U HU HqU HUl. destruct (HU1 U HU HqU HUl) as [Hkeep Hup].
  replace (Zpos m * 2 ^ (j1 + j2)) with (z * 2 ^ j1)
    by (rewrite <- Hmz, Z.pow_add_r by lia; ring).
  destruct Hz as [->|[-> Hloc]]; [lia|]. by apply Hup.
Qed.

Lemma SFdiv_core_binary_normal mx ex my ey :
  2 ^ 52 <= Zpos mx < 2 ^ 53 → 2 ^ 52 <= Zpos my < 2 ^ 53 →
  -52 <= ex <= 0 → -52 <= ey <= 0 →
  SFdiv_core_binary prec emax (Zpos mx) ex (Zpos my) ey =
  (Zpos mx * 2 ^ 53 / Zpos my, ex - ey - 53,
   new_location (Zpos my) ((Zpos mx * 2 ^ 53) mod Zpos my)).
Proof.
  intros Hmx Hmy Hex Hey. unfold SFdiv_core_binary.
  rewrite (Zdigits2_eq (Zpos mx) 53), (Zdigits2_eq (Zpos my) 53) by lia.
  rewrite fexp_normal by lia.
  replace (Z.min (53 + ex - (53 + ey) - 53) (ex - ey)) with (ex - ey - 53)
    by lia.
  replace (ex - ey - (ex - ey - 53)) with 53 by lia.
  lazy zeta iota beta. rewrite Z.shiftl_mul_pow2 by lia.
  unfold Z.div, Z.modulo. by destruct (Z.div_eucl _ _).
Qed.

Lemma SFleb_hundred m F :
  2 ^ 52 <= Zpos m < 2 ^ 53 → 0 <= F → Zpos m <= 100 * 2 ^ F →
  SFleb (S754_finite false m (- F)) hundred = true.
Proof.
  intros Hm HF Hle. unfold SFleb, SFcompare, hundred.
  destruct (Z.compare_spec (- F) (-46)) as [Heq|Hlt|Hgt]; [|done|].
  - assert (F = 46) as -> by lia.
    rewrite Pos.compare_cont_spec. cbn [Pos.switch_Eq].
    destruct (Pos.compare_spec m 7036874417766400) as [?|?|Hgt]; [done..|].
    lia.
  - assert (2 ^ F <= 2 ^ 45) by (apply Z.pow_le_mono_r; lia). lia.
Qed.

(** The quotient of two doubles of integers whose ratio is at most one
    hundred is a finite double that is at most [100.0]. *)
Lemma SFdiv_le_hundred mx ex my ey :
  2 ^ 52 <= Zpos mx < 2 ^ 53 → 2 ^ 52 <= Zpos my < 2 ^ 53 →
  -52 <= ex <= 0 → -52 <= ey <= 0 →
  Zpos mx * 2 ^ 53 <= 100 * 2 ^ (53 - ex + ey) * Zpos my →
  ∃ m e,
    SFdiv prec emax (S754_finite false mx ex) (S754_finite false my ey) =
      S754_finite false m e ∧
    SFleb (S754_finite false m e) hundred = true.
Proof.
  intros Hmx Hmy Hex Hey Hval. unfold SFdiv.
  rewrite SFdiv_core_binary_normal by done. cbn [xorb].
  set (q := Zpos mx * 2 ^ 53 / Zpos my).
  set (r := (Zpos mx * 2 ^ 53) mod Zpos my).
  set (E := 53 - ex + ey) in *.
  pose proof (Z.div_mod (Zpos mx * 2 ^ 53) (Zpos my) ltac:(lia)) as Hdiv.
  pose proof (Z.mod_pos_bound (Zpos mx * 2 ^ 53) (Zpos my) ltac:(lia)) as Hr.
  fold q r in Hdiv, Hr.
  assert (HE : 46 <= E).
  { destruct (Z.le_gt_cases 46 E) as [|Hlt]; [done|].
    assert (2 ^ E <= 2 ^ 45) by (apply Z.pow_le_mono_r; lia). nia. }
  assert (Hq : 2 ^ 52 <= q < 2 ^ 54) by nia.
  assert (HqU : q <= 100 * 2 ^ E) by nia.
  destruct (binary_round_aux_quotient q (ex - ey - 53)
              (new_location (Zpos my) r)) as (m & j & -> & Hj & Hm & HU);
    [done|lia|].
  exists m, (ex - ey - 53 + j). split; [done|].
  replace (ex - ey - 53 + j) with (- (E - j)) by (unfold E; lia).
  apply SFleb_hundred; [done|lia|].
  assert (Hmj : Zpos m * 2 ^ j <= 100 * 2 ^ E).
  { apply HU; [|done|].
    - rewrite Z.even_mul. done.
    - intros Hloc. destruct (decide (r = 0)) as [Hr0|Hr0].
      + rewrite Hr0, new_location_exact in Hloc. done.
      + nia. }
  replace (2 ^ E) with (2 ^ (E - j) * 2 ^ j) in Hmj
    by (rewrite <- Z.pow_add_r by lia; f_equal; lia).
  pose proof (Z.pow_pos_nonneg 2 j ltac:(lia) ltac:(lia)). nia.
Qed.

(** Below 2^53 for a hundred times the weight, the percentage of a count
    that is at most the weight is a double between [0.0] and [100.0]. *)
Lemma percentage_float_range c T :
  0 <= c <= T → 0 < T → 100 * T < 2 ^ 53 →
  ∃ f, percentage_float c T = Some f ∧
       SFleb (S754_zero false) f = true ∧ SFleb f hundred = true.
Proof.
  intros Hc HT Hbound. unfold percentage_float, float_of_int.
  rewrite (binary_normalize_exact T) by lia.
  destruct (norm_m_bounds T) as [HdT HmT]; [lia|].
  destruct (decide (c = 0)) as [->|Hc0].
  - exists (S754_zero false). by split_and!.
  - rewrite (binary_normalize_exact c) by lia. cbn [mbind option_bind].
    rewrite SFmul_hundred_exact by lia. cbn [float_div].
    destruct (norm_m_bounds (100 * c)) as [Hdx Hmx]; [lia|].
    destruct (SFdiv_le_hundred (Z.to_pos (norm_m (100 * c))) (norm_e (100 * c))
                (Z.to_pos (norm_m T)) (norm_e T)) as (m & e & Hdiv & Hle).
    + rewrite Z2Pos.id; lia.
    + rewrite Z2Pos.id; lia.
    + unfold norm_e. lia.
    + unfold norm_e. lia.
    + rewrite !Z2Pos.id by lia. unfold norm_m, norm_e.
      set (dx := Zdigits2 (100 * c)) in *. set (dT := Zdigits2 T) in *.
      replace (53 - (dx - 53) + (dT - 53)) with ((53 - dx) + dT) by lia.
      replace (100 * 2 ^ (53 - dx + dT) * (T * 2 ^ (53 - dT)))
        with (100 * T * 2 ^ (53 - dx) * 2 ^ 53).
      * pose proof (Z.pow_pos_nonneg 2 (53 - dx) ltac:(lia) ltac:(lia)). nia.
      * rewrite (Z.pow_add_r 2 (53 - dx) dT) by lia.
        replace (2 ^ 53) with (2 ^ dT * 2 ^ (53 - dT))
          by (rewrite <- Z.pow_add_r by lia; f_equal; lia).
        ring.
    + exists (S754_finite false m e). rewrite Hdiv. by split_and!.
Qed.
End Floats.

(** A count between 0 and a weight below 2^53/100 always has a
    percentage. *)
Lemma percentage_defined (c T : Z) :
  0 <= c <= T → 100 * T < 2 ^ 53 → is_Some (percentage c T).
Proof.
  intros Hc Hbound. unfold percentage. case_decide as HT; [|by eexists].
  destruct (percentage_float_range c T Hc ltac:(lia) Hbound) as (f & -> & _).
  by eexists.
Qed.

Lemma total_vote_weight_bound (r : json_report) :
  (∀ name c, report_answers r !! name = Some c → 0 <= c) →
  0 <= total_vote_weight r ∧
  ∀ name c, report_answers r !! name = Some c → 0 <= c <= total_vote_weight r.
Proof.
  unfold total_vote_weight.
  apply (map_fold_weak_ind (λ total (m : gmap string Z),
    (∀ name c, m !! name = Some c → 0 <= c) →
    0 <= total ∧ ∀ name c, m !! name = Some c → 0 <= c <= total)).
  - intros _. split; [done|]. intros name c Hc. by rewrite lookup_empty in Hc.
  - intros i x m total Hi IH Hnonneg.
    assert (Hx : 0 <= x) by (apply (Hnonneg i); by rewrite lookup_insert_eq).
    destruct IH as [Htotal Hm].
    { intros name c Hc. apply (Hnonneg name).
      rewrite lookup_insert_ne; [done|]. intros ->. by rewrite Hi in Hc. }
    split; [lia|]. intros name c Hc.
    destruct (decide (i = name)) as [->|Hne].
    + rewrite lookup_insert_eq in Hc. injection Hc as ->. lia.
    + rewrite lookup_insert_ne in Hc by done. specialize (Hm name c Hc). lia.
Qed.

Lemma fill_answers_returned (r : json_report) (T : Z) (l : list answer) :
  (∀ a, a ∈ l → ∃ c p, report_answers r !! value a = Some c ∧
                        percentage c T = Some p) →
  ∃ l', fill_answers r T l = (l', Returned) ∧
        Forall2 (λ a a', ∃ c p, report_answers r !! value a = Some c ∧
                                percentage c T = Some p ∧
                                a' = mkAnswer (value a) (Some c) (Some p)) l l'.
Proof.
  induction l as [|a l IH]; intros Hl.
  - exists []. split; [done|constructor].
  - destruct (Hl a) as (c & p & Hc & Hp); [left|].
    destruct IH as (l' & Hfill & Hall).
    { intros a' Ha'. apply Hl. by right. }
    exists (mkAnswer (value a) (Some c) (Some p) :: l'). simpl.
    rewrite Hc, Hp, Hfill. split; [done|]. constructor; [|done].
    by exists c, p.
Qed.

(** C7 (as stated) fails: with one answer that has 5920956124208825 votes,
    all counts are non-negative and the composed percentage is the double
    100 + 2^-46 (Python prints 100.00000000000001), which is above 100:
    the product by [100.0] is rounded, and so is the quotient. *)
Lemma percentage_above_hundred :
  (∀ name c, report_answers big_report !! name = Some c → 0 <= c) ∧
  (fill_results big_report one_answer).2 = Returned ∧
  q_answers (fill_results big_report one_answer).1 =
    [ mkAnswer "A" (Some 5920956124208825)
        (Some (PyFloat (S754_finite false 7036874417766401 (-46)))) ] ∧
  ¬ pynum_le_int (PyFloat (S754_finite false 7036874417766401 (-46))) 100.
Proof.
  split_and!.
  - change (map_Forall (λ _ c, 0 <= c) (report_answers big_report)).
    apply (bool_decide_unpack _). vm_compute. exact I.
  - vm_compute. reflexivity.
  - vm_compute. reflexivity.
  - vm_compute. discriminate.
Qed.

(** What a loop that returns has stored: every answer has its count from
    the report and the percentage computed from it. *)
Lemma fill_answers_Returned_inv (r : json_report) (T : Z) (l l' : list answer) :
  fill_answers r T l = (l', Returned) →
  Forall2 (λ a a', ∃ c p, report_answers r !! value a = Some c ∧
                          percentage c T = Some p ∧
                          a' = mkAnswer (value a) (Some c) (Some p)) l l'.
Proof.
  revert l'. induction l as [|a l IH]; intros l' Hfill; simpl in Hfill.
  - injection Hfill as <-. constructor.
  - destruct (report_answers r !! value a) as [c|] eqn:Hc; [|done].
    destruct (percentage c T) as [p|] eqn:Hp; [|done].
    destruct (fill_answers r T l) as [l'' o] eqn:Hl.
    injection Hfill as <- ->. constructor; [by exists c, p|by apply IH].
Qed.

(** A call returns only when the winners were decoded and the loop over the
    answers returned. *)
Lemma fill_results_Returned_inv (r : json_report) (q : question) :
  (fill_results r q).2 = Returned →
  ∃ ws l', decode_winners r = Some ws ∧
           fill_answers r (total_vote_weight r) (q_answers q) = (l', Returned) ∧
           (fill_results r q).1 =
             store_answers l' (store_winners ws (store_totals r q)).
Proof.
  unfold fill_results. destruct (decode_winners r) as [ws|]; [|done].
  simpl. destruct (fill_answers _ _ _) as [l' o]. simpl.
  intros ->. by exists ws, l'.
Qed.

Lemma decode_winners_is_Some (r : json_report) :
  is_Some (decode_winners r) ↔ ∀ w, w ∈ winners r → is_Some (decode_utf8 w).
Proof. unfold decode_winners. by rewrite mapM_is_Some, Forall_forall. Qed.

(** Below 2^53 for a hundred times the weight, a call returns when every
    winner can be decoded and every answer has a count. *)
Lemma fill_results_Returned_intro (r : json_report) (q : question) :
  (∀ name c, report_answers r !! name = Some c → 0 <= c) →
  100 * total_vote_weight r < 2 ^ 53 →
  (∀ w, w ∈ winners r → is_Some (decode_utf8 w)) →
  (∀ a, a ∈ q_answers q → is_Some (report_answers r !! value a)) →
  (fill_results r q).2 = Returned.
Proof.
  intros Hnonneg Hbound Hwinners Hnames.
  destruct (total_vote_weight_bound r Hnonneg) as [_ Hle].
  apply decode_winners_is_Some in Hwinners as [ws Hws].
  destruct (fill_answers_returned r (total_vote_weight r) (q_answers q))
    as (l' & Hfill & _).
  { intros a Ha. destruct (Hnames a Ha) as [c Hc].
    destruct (percentage_defined c (total_vote_weight r)) as [p Hp];
      [by apply (Hle (value a))|done|].
    by exists c, p. }
  unfold fill_results. rewrite Hws. simpl. by rewrite Hfill.
Qed.

(** C7 (amended): take a report whose per-answer counts are non-negative.
    When a hundred times its vote weight (the sum of the counts) is below
    2^53, every winner can be decoded and every answer of the question has
    a count, [fill_results] returns.  Whenever it returns, every answer has
    its count and a percentage: the double [(count * 100.0) / weight] when
    the weight is positive, the integer 0 when the weight is 0; and when a
    hundred times the weight is below 2^53, the percentage is between 0 and
    100. *)
Theorem fill_results_percentages (r : json_report) (q : question) :
  (∀ name c, report_answers r !! name = Some c → 0 <= c) →
  (100 * total_vote_weight r < 2 ^ 53 →
   (∀ w, w ∈ winners r → is_Some (decode_utf8 w)) →
   (∀ a, a ∈ q_answers q → is_Some (report_answers r !! value a)) →
   (fill_results r q).2 = Returned) ∧
  ((fill_results r q).2 = Returned →
   length (q_answers (fill_results r q).1) = length (q_answers q) ∧
   ∀ i a, q_answers q !! i = Some a →
     ∃ c p,
       report_answers r !! value a = Some c ∧
       q_answers (fill_results r q).1 !! i =
         Some (mkAnswer (value a) (Some c) (Some p)) ∧
       (0 < total_vote_weight r →
          ∃ fc ft, float_of_int c = Some fc ∧
                   float_of_int (total_vote_weight r) = Some ft ∧
                   p = PyFloat (SFdiv prec emax (SFmul prec emax fc hundred) ft)) ∧
       (total_vote_weight r = 0 → p = PyInt 0) ∧
       (100 * total_vote_weight r < 2 ^ 53 →
          int_le_pynum 0 p ∧ pynum_le_int p 100)).
Proof.
  intros Hnonneg. split; [by apply fill_results_Returned_intro|].
  intros Hret.
  destruct (fill_results_Returned_inv r q Hret) as (ws & l' & _ & Hfill & ->).
  apply fill_answers_Returned_inv in Hfill. simpl.
  destruct (total_vote_weight_bound r Hnonneg) as [HT Hle].
  set (T := total_vote_weight r) in *.
  split; [by rewrite (Forall2_length _ _ _ Hfill)|].
  intros i a Hi.
  destruct (Forall2_lookup_l _ _ _ i a Hfill Hi)
    as (a' & Ha' & c & p & Hc & Hp & ->).
  exists c, p. split_and!; [done|done|..].
  - intros HT0. unfold percentage in Hp. rewrite decide_True in Hp by lia.
    unfold percentage_float in Hp.
    destruct (float_of_int c) as [fc|]; [|done].
    destruct (float_of_int T) as [ft|]; [|done].
    simpl in Hp. unfold float_div in Hp. exists fc, ft.
    split_and!; [done..|]. destruct ft; simpl in Hp; by simplify_eq.
  - intros HT0. unfold percentage in Hp. rewrite decide_False in Hp by lia.
    by simplify_eq.
  - intros Hbound. unfold percentage in Hp.
    destruct (decide (T > 0)) as [HT0|HT0].
    + destruct (percentage_float_range c T (Hle _ _ Hc) ltac:(lia) Hbound)
        as (f & Hf & H0 & H100).
      rewrite Hf in Hp. simpl in Hp. simplify_eq. by split.
    + simplify_eq. simpl. lia.
Qed.

Lemma fill_results_percentages_witness :
  (fill_results abc_report abc).2 = Returned ∧
  length (q_answers (fill_results abc_report abc).1) = length (q_answers abc) ∧
  ∀ i a, q_answers abc !! i = Some a →
    ∃ c p,
      report_answers abc_report !! value a = Some c ∧
      q_answers (fill_results abc_report abc).1 !! i =
        Some (mkAnswer (value a) (Some c) (Some p)) ∧
      (0 < total_vote_weight abc_report →
         ∃ fc ft, float_of_int c = Some fc ∧
                  float_of_int (total_vote_weight abc_report) = Some ft ∧
                  p = PyFloat (SFdiv prec emax (SFmul prec emax fc hundred) ft)) ∧
      (total_vote_weight abc_report = 0 → p = PyInt 0) ∧
      (100 * total_vote_weight abc_report < 2 ^ 53 →
         int_le_pynum 0 p ∧ pynum_le_int p 100).
Proof.
  destruct (fill_results_percentages abc_report abc) as [Hreturns Hfilled].
  - change (map_Forall (λ _ c, 0 <= c) (report_answers abc_report)).
    apply (bool_decide_unpack _). vm_compute. exact I.
  - assert (Hret : (fill_results abc_report abc).2 = Returned).
    { apply Hreturns.
      - vm_compute. reflexivity.
      - apply Forall_forall. apply (bool_decide_unpack _). vm_compute. exact I.
      - apply Forall_forall. apply (bool_decide_unpack _). vm_compute. exact I. }
    split; [exact Hret|]. exact (Hfilled Hret).
Defined.

(** ** The worked example of the specification *)

(** With the answers A, B and C and one or two selections, the vote 12
    decodes to A and B and the vote 44 is refused; two voters casting 12
    and one casting 1 give one ballot with two votes for the ids of A and B
    and one ballot with one vote for the id of A. *)
Example decode_and_aggregate_example :
  tab_size abc = 1%nat ∧
  parse_vote 12 abc = Some ["A"; "B"]%string ∧
  parse_vote 44 abc = None ∧
  parse_vote 1 abc = Some ["A"]%string ∧
  ballots (add_votes (pre_tally init abc)
             [["A"; "B"]; ["A"; "B"]; ["A"]]%string) =
    [ {| votes := 2; answers := [1; 2] |}; {| votes := 1; answers := [1] |} ].
Proof. split_and!; by vm_compute. Qed.

(** * Further properties *)

(** ** Counting votes *)

Section Counting.
Implicit Types (t : ApprovalTally) (bs : list ballot) (ans : list Z).

Lemma votes_sum_cons b bs : votes_sum (b :: bs) = votes b + votes_sum bs.
Proof. reflexivity. Qed.

Lemma votes_sum_app bs1 bs2 :
  votes_sum (bs1 ++ bs2) = votes_sum bs1 + votes_sum bs2.
Proof. induction bs1 as [|b bs1 IH]; simpl; lia. Qed.

Lemma votes_for_cons b bs ans :
  votes_for (b :: bs) ans =
  (if decide (answers b = ans) then votes b else 0) + votes_for bs ans.
Proof.
  unfold votes_for. rewrite filter_cons. case_decide; simpl; lia.
Qed.

Lemma votes_for_app bs1 bs2 ans :
  votes_for (bs1 ++ bs2) ans = votes_for bs1 ans + votes_for bs2 ans.
Proof. unfold votes_for. by rewrite filter_app, votes_sum_app. Qed.

Lemma votes_for_found bs ans i ans' :
  find_ballot bs ans = Some i →
  votes_for (alter incr_votes i bs) ans' =
  votes_for bs ans' + (if decide (ans = ans') then 1 else 0).
Proof.
  revert i. induction bs as [|b bs IH]; intros i; simpl; [done|].
  destruct (decide (answers b = ans)) as [Hb|Hb].
  - intros [= <-].
    change (alter incr_votes 0%nat (b :: bs)) with (incr_votes b :: bs).
    rewrite !votes_for_cons. simpl. subst ans. repeat case_decide; lia.
  - destruct (find_ballot bs ans) as [k|] eqn:Hk; simpl; [|done].
    intros [= <-].
    change (alter incr_votes (S k) (b :: bs)) with (b :: alter incr_votes k bs).
    rewrite !votes_for_cons, (IH k eq_refl). lia.
Qed.

Lemma votes_sum_found bs ans i :
  find_ballot bs ans = Some i →
  votes_sum (alter incr_votes i bs) = votes_sum bs + 1.
Proof.
  revert i. induction bs as [|b bs IH]; intros i; simpl; [done|].
  destruct (decide (answers b = ans)) as [Hb|Hb].
  - intros [= <-].
    change (alter incr_votes 0%nat (b :: bs)) with (incr_votes b :: bs).
    rewrite !votes_sum_cons. simpl. lia.
  - destruct (find_ballot bs ans) as [k|] eqn:Hk; simpl; [|done].
    intros [= <-].
    change (alter incr_votes (S k) (b :: bs)) with (b :: alter incr_votes k bs).
    rewrite !votes_sum_cons, (IH k eq_refl). lia.
Qed.

Lemma add_vote_rejected t choices :
  ¬ accepted t choices → add_vote t choices = t.
Proof.
  unfold accepted, add_vote. intros Hrej. case_decide; [done|].
  by destruct Hrej.
Qed.

Lemma accepted_add_vote t v choices :
  accepted (add_vote t v) choices ↔ accepted t choices.
Proof.
  unfold accepted. by rewrite (map_ext _ _ (add_vote_answer2id t v)).
Qed.

(** One [add_vote] adds one vote to the id list of an accepted vote and
    none to any other id list; a refused vote adds none. *)
Lemma add_vote_votes_for t (choices : list string) ans :
  votes_for (ballots (add_vote t choices)) ans =
  votes_for (ballots t) ans +
  (if decide (accepted t choices ∧ map (answer2id t) choices = ans)
   then 1 else 0).
Proof.
  destruct (decide (accepted t choices)) as [Hacc|Hrej].
  - assert (Hif : (if decide (accepted t choices ∧
                                map (answer2id t) choices = ans)
                   then 1 else 0) =
                  (if decide (map (answer2id t) choices = ans) then 1 else 0)).
    { repeat case_decide; try done; exfalso; tauto. }
    rewrite Hif. clear Hif.
    destruct (find_ballot (ballots t) (map (answer2id t) choices))
      as [i|] eqn:Hfind.
    + rewrite (add_vote_found t choices i Hacc Hfind).
      by rewrite (votes_for_found _ _ _ _ Hfind).
    + pose proof (proj1 (find_ballot_None _ _) Hfind) as Hnone.
      rewrite (add_vote_fresh t choices Hacc Hnone), votes_for_app.
      rewrite votes_for_cons. simpl.
      change (votes_for [] ans) with 0. case_decide; lia.
  - rewrite add_vote_rejected by done.
    rewrite decide_False by (intros [? _]; done). lia.
Qed.

Lemma add_vote_votes_sum t (choices : list string) :
  votes_sum (ballots (add_vote t choices)) =
  votes_sum (ballots t) + (if decide (accepted t choices) then 1 else 0).
Proof.
  case_decide as Hacc.
  - destruct (find_ballot (ballots t) (map (answer2id t) choices))
      as [i|] eqn:Hfind.
    + rewrite (add_vote_found t choices i Hacc Hfind).
      by rewrite (votes_sum_found _ _ _ Hfind).
    + pose proof (proj1 (find_ballot_None _ _) Hfind) as Hnone.
      rewrite (add_vote_fresh t choices Hacc Hnone), votes_sum_app.
      simpl. lia.
  - rewrite add_vote_rejected by done. lia.
Qed.

Lemma add_votes_sum_count t (vs : list (list string)) :
  votes_sum (ballots (add_votes t vs)) =
  votes_sum (ballots t) + Z.of_nat (length (filter (accepted t) vs)).
Proof.
  unfold add_votes. revert t. induction vs as [|v vs IH]; intros t; simpl.
  - lia.
  - rewrite IH, add_vote_votes_sum.
    rewrite (list_filter_iff _ (accepted t) vs)
      by (intros w; apply accepted_add_vote).
    rewrite filter_cons. case_decide; simpl; lia.
Qed.

Lemma add_votes_for_count t (vs : list (list string)) ans :
  votes_for (ballots (add_votes t vs)) ans =
  votes_for (ballots t) ans +
  Z.of_nat (length (filter (λ v, accepted t v ∧ map (answer2id t) v = ans) vs)).
Proof.
  unfold add_votes. revert t. induction vs as [|v vs IH]; intros t; simpl.
  - lia.
  - rewrite IH, add_vote_votes_for.
    rewrite (list_filter_iff _ (λ w, accepted t w ∧ map (answer2id t) w = ans) vs).
    + rewrite filter_cons. case_decide; simpl; lia.
    + intros w. rewrite accepted_add_vote.
      by rewrite (map_ext _ _ (add_vote_answer2id t v)).
Qed.

Lemma map_answers_alter bs i :
  map answers (alter incr_votes i bs) = map answers bs.
Proof.
  revert i. induction bs as [|b bs IH]; intros [|i]; simpl; [done..|].
  f_equal. apply IH.
Qed.

Lemma add_vote_well_grouped t choices :
  well_grouped (ballots t) → well_grouped (ballots (add_vote t choices)).
Proof.
  intros [Hnd Hpos].
  destruct (decide (accepted t choices)) as [Hacc|Hrej];
    [|by rewrite add_vote_rejected].
  destruct (find_ballot (ballots t) (map (answer2id t) choices))
    as [i|] eqn:Hfind.
  - rewrite (add_vote_found t choices i Hacc Hfind). split.
    + by rewrite map_answers_alter.
    + apply Forall_alter; [done|]. intros b _ Hb. unfold incr_votes. simpl.
      lia.
  - pose proof (proj1 (find_ballot_None _ _) Hfind) as Hnone.
    rewrite (add_vote_fresh t choices Hacc Hnone). split.
    + rewrite map_app. simpl. apply NoDup_app. split_and!; [done| |].
      * intros ids (b & -> & Hb)%list_elem_of_fmap Hin.
        apply list_elem_of_singleton in Hin. by apply (Hnone b).
      * apply NoDup_singleton.
    + apply Forall_app. split; [done|]. by repeat constructor.
Qed.

(** What holds of the id lists of the ballots there were and of the id
    lists of the accepted votes holds of the id lists of all ballots. *)
Lemma add_votes_answers_invariant (P : list Z → Prop) t
    (vs : list (list string)) :
  (∀ b, b ∈ ballots t → P (answers b)) →
  (∀ v, v ∈ vs → accepted t v → P (map (answer2id t) v)) →
  ∀ b, b ∈ ballots (add_votes t vs) → P (answers b).
Proof.
  unfold add_votes. revert t.
  induction vs as [|v vs IH]; intros t Hold Hnew b Hb; simpl in Hb.
  - by apply Hold.
  - apply (IH (add_vote t v)); [| |done].
    + intros b0 Hb0.
      destruct (decide (accepted t v)) as [Hv|Hv];
        [|rewrite add_vote_rejected in Hb0 by done; by apply Hold].
      destruct (find_ballot (ballots t) (map (answer2id t) v))
        as [i|] eqn:Hfind.
      * rewrite (add_vote_found t v i Hv Hfind) in Hb0.
        assert (Hin : answers b0 ∈ map answers (ballots t)).
        { rewrite <- (map_answers_alter _ i). apply list_elem_of_fmap.
          by exists b0. }
        apply list_elem_of_fmap in Hin as (b1 & -> & Hb1). by apply Hold.
      * pose proof (proj1 (find_ballot_None _ _) Hfind) as Hnone.
        rewrite (add_vote_fresh t v Hv Hnone) in Hb0.
        apply elem_of_app in Hb0 as [Hb0|Hb0]; [by apply Hold|].
        apply list_elem_of_singleton in Hb0. subst b0. simpl.
        apply Hnew; [left|done].
    + intros w Hw Hacc. apply accepted_add_vote in Hacc.
      rewrite (map_ext _ _ (add_vote_answer2id t v)). apply Hnew; [by right|done].
Qed.
End Counting.

(** X1: after any sequence of votes, the votes in the ballot list are those
    there were plus the number of accepted votes, and the votes held for an
    id list are those there were plus the number of accepted votes with
    exactly that id list: no accepted vote is lost or counted twice, and no
    refused vote is counted. *)
Theorem add_votes_counts (t : ApprovalTally) (vs : list (list string))
    (ans : list Z) :
  votes_sum (ballots (add_votes t vs)) =
    votes_sum (ballots t) + Z.of_nat (length (filter (accepted t) vs)) ∧
  votes_for (ballots (add_votes t vs)) ans =
    votes_for (ballots t) ans +
    Z.of_nat (length (filter (λ v, accepted t v ∧
                                   map (answer2id t) v = ans) vs)).
Proof.
  split.
  - apply add_votes_sum_count.
  - apply add_votes_for_count.
Qed.

(** X2: the votes held for each id list, and the votes in all, do not
    depend on the order in which the votes are added. *)
Theorem add_votes_order_independent (t : ApprovalTally)
    (vs vs' : list (list string)) (ans : list Z) :
  vs' ≡ₚ vs →
  votes_for (ballots (add_votes t vs')) ans =
  votes_for (ballots (add_votes t vs)) ans ∧
  votes_sum (ballots (add_votes t vs')) = votes_sum (ballots (add_votes t vs)).
Proof.
  intros Hperm. rewrite !add_votes_for_count, !add_votes_sum_count.
  by rewrite Hperm.
Qed.

Lemma add_votes_order_independent_witness :
  votes_for (ballots (add_votes (pre_tally init abc)
               [["B"]; ["A"; "B"]; ["B"]]%string)) [2] =
  votes_for (ballots (add_votes (pre_tally init abc)
               [["B"]; ["B"]; ["A"; "B"]]%string)) [2] ∧
  votes_sum (ballots (add_votes (pre_tally init abc)
               [["B"]; ["A"; "B"]; ["B"]]%string)) =
  votes_sum (ballots (add_votes (pre_tally init abc)
               [["B"]; ["B"]; ["A"; "B"]]%string)).
Proof.
  apply (add_votes_order_independent (pre_tally init abc)
           [["B"]; ["B"]; ["A"; "B"]]%string
           [["B"]; ["A"; "B"]; ["B"]]%string [2]).
  apply (bool_decide_unpack _). vm_compute. exact I.
Defined.

(** X3: a vote without choices is accepted: it adds one vote, held for the
    empty id list. *)
Theorem add_vote_no_choices (t : ApprovalTally) :
  votes_sum (ballots (add_vote t [])) = votes_sum (ballots t) + 1 ∧
  votes_for (ballots (add_vote t [])) [] = votes_for (ballots t) [] + 1.
Proof.
  assert (Hacc : accepted t [])
    by (unfold accepted; simpl; apply not_elem_of_nil).
  rewrite add_vote_votes_sum, add_vote_votes_for.
  rewrite !decide_True by done. done.
Qed.

(** X4: a ballot list that is well grouped (the empty list is) stays so
    after any sequence of votes: no two ballots have the same id list, and
    every ballot has at least one vote. *)
Theorem add_votes_well_grouped (t : ApprovalTally) (vs : list (list string)) :
  well_grouped (ballots t) → well_grouped (ballots (add_votes t vs)).
Proof.
  unfold add_votes. revert t. induction vs as [|v vs IH]; intros t Hwg; simpl.
  - done.
  - apply IH. by apply add_vote_well_grouped.
Qed.

Lemma add_votes_well_grouped_witness :
  well_grouped (ballots (add_votes (pre_tally init abc)
                  [["A"; "B"]; ["B"; "A"]; ["A"; "B"]; ["Z"]]%string)).
Proof.
  apply (add_votes_well_grouped (pre_tally init abc)).
  split; [apply NoDup_nil_2|apply Forall_nil_2].
Defined.

(** X5: every ballot comes from a vote: after any sequence of votes, the id
    list of a ballot is the id list of a ballot that was there before or
    of one of the accepted votes. *)
Theorem ballots_provenance (t : ApprovalTally) (vs : list (list string))
    (b : ballot) :
  b ∈ ballots (add_votes t vs) →
  (∃ b0, b0 ∈ ballots t ∧ answers b = answers b0) ∨
  (∃ v, v ∈ vs ∧ accepted t v ∧ answers b = map (answer2id t) v).
Proof.
  apply (add_votes_answers_invariant (λ ans,
    (∃ b0, b0 ∈ ballots t ∧ ans = answers b0) ∨
    (∃ v, v ∈ vs ∧ accepted t v ∧ ans = map (answer2id t) v))).
  - intros b0 Hb0. left. by exists b0.
  - intros v Hv Hacc. right. by exists v.
Qed.

Lemma ballots_provenance_witness :
  (∃ b0, b0 ∈ ballots (pre_tally init abc) ∧ [2; 1] = answers b0) ∨
  (∃ v, v ∈ [["A"; "B"]; ["B"; "A"]]%string ∧
        accepted (pre_tally init abc) v ∧
        [2; 1] = map (answer2id (pre_tally init abc)) v).
Proof.
  apply (ballots_provenance (pre_tally init abc)
           [["A"; "B"]; ["B"; "A"]]%string {| votes := 1; answers := [2; 1] |}).
  apply (bool_decide_unpack _). vm_compute. exact I.
Defined.

(** ** The answer index, whatever the question *)

Section Index.
Implicit Types (l : list answer) (d : gmap string Z).

Lemma fill_answer_to_ids_last l i d k a :
  l !! k = Some a →
  (∀ j a', (k < j)%nat → l !! j = Some a' → value a' ≠ value a) →
  fill_answer_to_ids l i d !! value a = Some (i + Z.of_nat k).
Proof.
  revert i d k. induction l as [|a0 l IH]; intros i d k Hk Hlast; [done|].
  simpl. destruct k as [|k]; simpl in Hk.
  - injection Hk as ->. rewrite fill_answer_to_ids_notin.
    + rewrite lookup_insert_eq. f_equal. lia.
    + intros (a' & Heq & [j Hj]%list_elem_of_lookup)%list_elem_of_fmap.
      apply (Hlast (S j) a'); [lia|done|done].
  - rewrite (IH _ _ k Hk).
    + f_equal. lia.
    + intros j a' Hj Ha'. apply (Hlast (S j) a'); [lia|done].
Qed.

Lemma fill_answer_to_ids_range l i d v x :
  fill_answer_to_ids l i d !! v = Some x →
  d !! v = Some x ∨ i <= x < i + Z.of_nat (length l).
Proof.
  revert i d. induction l as [|a l IH]; intros i d Hx; simpl in *; [by left|].
  destruct (IH _ _ Hx) as [Hd|Hr]; [|right; lia].
  destruct (decide (value a = v)) as [<-|Hne].
  - rewrite lookup_insert_eq in Hd. injection Hd as <-. right. lia.
  - rewrite lookup_insert_ne in Hd by done. by left.
Qed.

Lemma fill_answer_to_ids_inj l i d :
  (∀ v x, d !! v = Some x → x < i) →
  (∀ v w x, d !! v = Some x → d !! w = Some x → v = w) →
  ∀ v w x, fill_answer_to_ids l i d !! v = Some x →
           fill_answer_to_ids l i d !! w = Some x → v = w.
Proof.
  revert i d. induction l as [|a l IH]; intros i d Hlt Hinj; simpl; [done|].
  apply IH.
  - intros v x. destruct (decide (value a = v)) as [<-|Hne].
    + rewrite lookup_insert_eq. intros [= <-]. lia.
    + rewrite lookup_insert_ne by done. intros Hv. specialize (Hlt v x Hv). lia.
  - intros v w x.
    destruct (decide (value a = v)) as [<-|Hv], (decide (value a = w)) as [<-|Hw];
      rewrite ?lookup_insert_eq, ?lookup_insert_ne by done; [done|..].
    + intros [= <-] Hw'. specialize (Hlt w i Hw'). lia.
    + intros Hv' [= <-]. specialize (Hlt v i Hv'). lia.
    + apply Hinj.
Qed.

(** In the index of [init] and [pre_tally], an id is held by one value
    only, and lies between 1 and the number of answers. *)
Lemma pre_tally_dict_inj (q : question) v w x :
  answer_to_ids_dict (pre_tally init q) !! v = Some x →
  answer_to_ids_dict (pre_tally init q) !! w = Some x → v = w.
Proof.
  unfold pre_tally, init. simpl.
  apply (fill_answer_to_ids_inj (q_answers q) 1 ∅).
  - intros ? ?. by rewrite lookup_empty.
  - intros ? ? ?. by rewrite lookup_empty.
Qed.

Lemma pre_tally_dict_range (q : question) v x :
  answer_to_ids_dict (pre_tally init q) !! v = Some x →
  1 <= x <= Z.of_nat (length (q_answers q)).
Proof.
  unfold pre_tally, init. simpl. intros Hx.
  destruct (fill_answer_to_ids_range _ _ _ _ _ Hx) as [Hd|Hr]; [|lia].
  by rewrite lookup_empty in Hd.
Qed.

(** An accepted vote resolves through the dictionary. *)
Lemma accepted_lookup (t : ApprovalTally) (choices : list string) c :
  accepted t choices → c ∈ choices →
  ∃ x, answer_to_ids_dict t !! c = Some x ∧ answer2id t c = x.
Proof.
  intros Hacc Hc. unfold answer2id.
  destruct (answer_to_ids_dict t !! c) as [x|] eqn:Hx; [by exists x|].
  exfalso. apply Hacc. apply list_elem_of_fmap. exists c.
  unfold answer2id. by rewrite Hx.
Qed.
End Index.

(** X6: [pre_tally] on any tally state: a value that several answers carry
    maps to the position of the last of them (counted from 1), and a value
    that no answer of the question carries keeps what the dictionary held
    before, be it an id of an earlier question or nothing. *)
Theorem pre_tally_last_wins (t : ApprovalTally) (q : question) :
  (∀ k a, q_answers q !! k = Some a →
          (∀ j a', (k < j)%nat → q_answers q !! j = Some a' →
                   value a' ≠ value a) →
          answer2id (pre_tally t q) (value a) = Z.of_nat k + 1) ∧
  (∀ v, v ∉ map value (q_answers q) →
        answer2id (pre_tally t q) v = answer2id t v).
Proof.
  unfold answer2id, pre_tally. simpl. split.
  - intros k a Hk Hlast.
    rewrite (fill_answer_to_ids_last _ _ _ k a Hk Hlast). simpl. lia.
  - intros v Hv. by rewrite fill_answer_to_ids_notin.
Qed.

(** X7: in the index that [init] and [pre_tally] build, two different
    values never resolve to the same id, whatever the question: distinct
    selections are never merged. *)
Theorem pre_tally_ids_injective (q : question) (v w : string) :
  v ≠ w →
  answer2id (pre_tally init q) v ≠ -1 →
  answer2id (pre_tally init q) v ≠ answer2id (pre_tally init q) w.
Proof.
  unfold answer2id. intros Hne Hv Heq.
  destruct (answer_to_ids_dict (pre_tally init q) !! v) as [x|] eqn:Hx;
    [|done].
  destruct (answer_to_ids_dict (pre_tally init q) !! w) as [y|] eqn:Hy;
    simpl in Heq; [|by subst].
  subst y. apply Hne. by apply (pre_tally_dict_inj q v w x).
Qed.

Lemma pre_tally_ids_injective_witness :
  answer2id (pre_tally init abc) "A" ≠ answer2id (pre_tally init abc) "B".
Proof.
  apply (pre_tally_ids_injective abc "A" "B").
  - discriminate.
  - vm_compute. discriminate.
Defined.

(** X8: every id in a ballot is the id of an answer: with the index built
    by [init] and [pre_tally] and no ballots to start with, the ids of all
    ballots lie between 1 and the number of answers. *)
Theorem ballots_ids_in_range (q : question) (vs : list (list string))
    (b : ballot) (id : Z) :
  b ∈ ballots (add_votes (pre_tally init q) vs) →
  id ∈ answers b →
  1 <= id <= Z.of_nat (length (q_answers q)).
Proof.
  intros Hb Hid. revert id Hid.
  apply (add_votes_answers_invariant
           (λ ans, ∀ id, id ∈ ans → 1 <= id <= Z.of_nat (length (q_answers q)))
           (pre_tally init q) vs); [| |done].
  - intros b0 Hb0. simpl in Hb0. by apply elem_of_nil in Hb0.
  - intros v _ Hacc id (c & -> & Hc)%list_elem_of_fmap.
    destruct (accepted_lookup _ _ c Hacc Hc) as (x & Hx & ->).
    by apply (pre_tally_dict_range q c).
Qed.

Lemma ballots_ids_in_range_witness :
  1 <= 2 <= Z.of_nat (length (q_answers abc)).
Proof.
  apply (ballots_ids_in_range abc [["A"; "B"]; ["B"; "A"]]%string
           {| votes := 1; answers := [2; 1] |} 2).
  - apply (bool_decide_unpack _). vm_compute. exact I.
  - apply (bool_decide_unpack _). vm_compute. exact I.
Defined.

(** ** The vote decoder: what it returns and what it refuses *)

Section Decoded.
Implicit Types (q : question) (ret : list string) (s : string).

Lemma parse_field_value q tab vote_str i v :
  parse_field q tab vote_str i = Some v → v ∈ map value (q_answers q).
Proof.
  unfold parse_field. destruct (field_option tab vote_str i) as [opt|]; [|done].
  simpl. repeat case_decide; try done.
  destruct (q_answers q !! Z.to_nat opt) as [a|] eqn:Ha; [|done].
  simpl. intros [= <-]. apply list_elem_of_fmap. exists a. split; [done|].
  by eapply list_elem_of_lookup_2.
Qed.

Lemma tab_size_pos q : (0 < tab_size q)%nat.
Proof.
  unfold tab_size.
  pose proof (length_py_str (Z.of_nat (length (q_answers q)) + 2)). lia.
Qed.

(** There is always a first field. *)
Lemma fields_count_pos q number :
  (0 < String.length (pad_vote (tab_size q) (py_str number)) / tab_size q)%nat.
Proof.
  pose proof (tab_size_pos q) as Htab.
  pose proof (length_pad_vote (tab_size q) (py_str number) Htab) as Hlen.
  assert (0 < String.length (pad_vote (tab_size q) (py_str number)))%nat.
  { rewrite pad_vote_zeros, str_length_app by done.
    pose proof (length_py_str number). lia. }
  destruct (String.length (pad_vote (tab_size q) (py_str number)) / tab_size q)%nat;
    lia.
Qed.

Lemma parse_vote_Some_inv number q ret :
  parse_vote number q = Some ret →
  parse_fields number q = Some ret ∧ ¬ invalid_vote q ret.
Proof.
  unfold parse_vote. destruct (parse_fields number q) as [ret'|]; [|done].
  simpl. case_decide; [done|]. by intros [= <-].
Qed.

Lemma parse_fields_values number q ret :
  parse_fields number q = Some ret →
  ret ≠ [] ∧ ∀ v, v ∈ ret → v ∈ map value (q_answers q).
Proof.
  unfold parse_fields. intros Hf%mapM_Some. split.
  - intros ->. apply Forall2_length in Hf. rewrite length_seq in Hf.
    pose proof (fields_count_pos q number). simpl in Hf. lia.
  - intros v [i Hv]%list_elem_of_lookup.
    destruct (Forall2_lookup_r _ _ _ i v Hf Hv) as (j & _ & Hpf).
    by eapply parse_field_value.
Qed.

Lemma valid_vote_inv q ret :
  ¬ invalid_vote q ret →
  q_min q <= Z.of_nat (length ret) <= q_max q ∧ NoDup ret.
Proof.
  unfold invalid_vote. intros Hinv. split; [lia|].
  apply size_list_to_set_NoDup.
  destruct (decide (size (list_to_set ret : gset string) = length ret));
    [done|]. exfalso. apply Hinv. by right; right.
Qed.

Lemma filter_accepted_all (t : ApprovalTally) (vs : list (list string)) :
  (∀ v, v ∈ vs → accepted t v) → filter (accepted t) vs = vs.
Proof.
  induction vs as [|v vs IH]; intros Hall; [done|].
  rewrite filter_cons_True by (apply Hall; left). f_equal.
  apply IH. intros w Hw. apply Hall. by right.
Qed.

(** What a decoded vote resolves to in the index of its question. *)
Lemma decoded_ids number q ret :
  parse_vote number q = Some ret →
  accepted (pre_tally init q) ret ∧
  NoDup (map (answer2id (pre_tally init q)) ret) ∧
  ∀ id, id ∈ map (answer2id (pre_tally init q)) ret →
        1 <= id <= Z.of_nat (length (q_answers q)).
Proof.
  intros (Hf & Hvalid)%parse_vote_Some_inv.
  destruct (parse_fields_values _ _ _ Hf) as [_ Hvals].
  destruct (valid_vote_inv _ _ Hvalid) as [_ Hnd].
  assert (Hres : ∀ c, c ∈ ret →
            ∃ x, answer_to_ids_dict (pre_tally init q) !! c = Some x ∧
                 answer2id (pre_tally init q) c = x).
  { intros c Hc. unfold answer2id, pre_tally, init. simpl.
    destruct (fill_answer_to_ids_in (q_answers q) 1 ∅ c (Hvals c Hc))
      as (k & a & _ & _ & ->). by eexists. }
  assert (Hrange : ∀ id, id ∈ map (answer2id (pre_tally init q)) ret →
            1 <= id <= Z.of_nat (length (q_answers q))).
  { intros id (c & -> & Hc)%list_elem_of_fmap.
    destruct (Hres c Hc) as (x & Hx & ->). by apply (pre_tally_dict_range q c). }
  split_and!; [|..|done].
  - intros Hin. specialize (Hrange _ Hin). lia.
  - apply NoDup_fmap_2_strong; [|done]. intros c c' Hc Hc' Heq.
    destruct (Hres c Hc) as (x & Hx & Hcx).
    destruct (Hres c' Hc') as (x' & Hx' & Hcx').
    apply (pre_tally_dict_inj q c c' x); [done|]. congruence.
Qed.
End Decoded.

(** X9: what [parse_vote] returns is a valid selection: it is not empty,
    its length is between the minimum and the maximum, it has no repeated
    value, and each of its values is the value of an answer of the
    question.  No number decodes to an empty selection, even when the
    minimum is 0. *)
Theorem parse_vote_sound (number : Z) (q : question) (ret : list string) :
  parse_vote number q = Some ret →
  ret ≠ [] ∧ q_min q <= Z.of_nat (length ret) <= q_max q ∧ NoDup ret ∧
  ∀ v, v ∈ ret → v ∈ map value (q_answers q).
Proof.
  intros (Hf & Hvalid)%parse_vote_Some_inv.
  destruct (parse_fields_values _ _ _ Hf) as [Hne Hvals].
  destruct (valid_vote_inv _ _ Hvalid) as [Hlen Hnd].
  split_and!; [done|lia|lia|done|done].
Qed.

Lemma parse_vote_sound_witness :
  ["A"; "B"]%string ≠ [] ∧
  q_min abc <= Z.of_nat (length ["A"; "B"]%string) <= q_max abc ∧
  NoDup ["A"; "B"]%string ∧
  ∀ v, v ∈ ["A"; "B"]%string → v ∈ map value (q_answers abc).
Proof.
  apply (parse_vote_sound 12 abc). vm_compute. reflexivity.
Defined.

(** X10: a question without answers, or with a maximum below 1, accepts no
    vote at all: every number is refused. *)
Theorem parse_vote_nothing_to_select (number : Z) (q : question) :
  q_answers q = [] ∨ q_max q < 1 →
  parse_vote number q = None.
Proof.
  intros Hq. destruct (parse_vote number q) as [ret|] eqn:Hparse; [|done].
  exfalso. apply parse_vote_Some_inv in Hparse as [Hf Hvalid].
  destruct (parse_fields_values _ _ _ Hf) as [Hne Hvals].
  destruct (valid_vote_inv _ _ Hvalid) as [Hlen _].
  destruct ret as [|v ret]; [done|]. destruct Hq as [Hq|Hq].
  - specialize (Hvals v ltac:(left)). rewrite Hq in Hvals.
    by apply elem_of_nil in Hvals.
  - simpl in Hlen. lia.
Qed.

Lemma parse_vote_nothing_to_select_witness :
  parse_vote 1 (mkQuestion [] 0 1 1 "Q" None None None) = None.
Proof. apply parse_vote_nothing_to_select. by left. Defined.

(** X11: a vote that [parse_vote] returns is always counted by [add_vote]
    once [init] and [pre_tally] have built the index of the same question,
    whatever votes came before: every selection resolves, to distinct ids
    between 1 and the number of answers, and the votes grow by one. *)
Theorem decoded_vote_counted (number : Z) (q : question) (ret : list string)
    (vs : list (list string)) :
  parse_vote number q = Some ret →
  let t := add_votes (pre_tally init q) vs in
  accepted t ret ∧
  votes_sum (ballots (add_vote t ret)) = votes_sum (ballots t) + 1 ∧
  NoDup (map (answer2id t) ret) ∧
  ∀ id, id ∈ map (answer2id t) ret →
        1 <= id <= Z.of_nat (length (q_answers q)).
Proof.
  intros Hparse t.
  destruct (decoded_ids _ _ _ Hparse) as (Hacc & Hnd & Hrange).
  assert (Hid : map (answer2id t) ret = map (answer2id (pre_tally init q)) ret).
  { apply map_ext. intros c. unfold t, answer2id. by rewrite add_votes_dict. }
  assert (Hacc' : accepted t ret) by (unfold accepted; by rewrite Hid).
  rewrite Hid. split_and!; [done| |done|done].
  rewrite add_vote_votes_sum. by rewrite decide_True.
Qed.

Lemma decoded_vote_counted_witness :
  let t := add_votes (pre_tally init abc) [["C"]]%string in
  accepted t ["A"; "B"]%string ∧
  votes_sum (ballots (add_vote t ["A"; "B"]%string)) = votes_sum (ballots t) + 1 ∧
  NoDup (map (answer2id t) ["A"; "B"]%string) ∧
  ∀ id, id ∈ map (answer2id t) ["A"; "B"]%string →
        1 <= id <= Z.of_nat (length (q_answers abc)).
Proof.
  apply (decoded_vote_counted 12 abc ["A"; "B"]%string [["C"]]%string).
  vm_compute. reflexivity.
Defined.

(** X12: when every vote added after [init] and [pre_tally] was returned
    by [parse_vote] for the same question, none is dropped (the votes in
    the ballot list are as many as the votes added), and every ballot has
    a non-empty id list without repetition, with a length between the
    minimum and the maximum. *)
Theorem decoded_ballots_valid (q : question) (vs : list (list string)) :
  (∀ v, v ∈ vs → ∃ number, parse_vote number q = Some v) →
  let t := add_votes (pre_tally init q) vs in
  votes_sum (ballots t) = Z.of_nat (length vs) ∧
  ∀ b, b ∈ ballots t →
       answers b ≠ [] ∧ NoDup (answers b) ∧
       q_min q <= Z.of_nat (length (answers b)) <= q_max q.
Proof.
  intros Hdec t. split.
  - unfold t. rewrite add_votes_sum_count. simpl.
    rewrite filter_accepted_all; [done|].
    intros v Hv. destruct (Hdec v Hv) as [number Hparse].
    by destruct (decoded_ids _ _ _ Hparse) as [? _].
  - apply (add_votes_answers_invariant (λ ans,
      ans ≠ [] ∧ NoDup ans ∧ q_min q <= Z.of_nat (length ans) <= q_max q)).
    + intros b Hb. simpl in Hb. by apply elem_of_nil in Hb.
    + intros v Hv _. destruct (Hdec v Hv) as [number Hparse].
      destruct (decoded_ids _ _ _ Hparse) as (_ & Hnd & _).
      apply parse_vote_Some_inv in Hparse as [Hf Hvalid].
      destruct (parse_fields_values _ _ _ Hf) as [Hne _].
      destruct (valid_vote_inv _ _ Hvalid) as [Hlen _].
      rewrite length_map. split_and!; [|done|lia..].
      by destruct v.
Qed.

Lemma decoded_ballots_valid_witness :
  let t := add_votes (pre_tally init abc) [["A"; "B"]; ["A"]]%string in
  votes_sum (ballots t) = Z.of_nat (length [["A"; "B"]; ["A"]]%string) ∧
  ∀ b, b ∈ ballots t →
       answers b ≠ [] ∧ NoDup (answers b) ∧
       q_min abc <= Z.of_nat (length (answers b)) <= q_max abc.
Proof.
  apply (decoded_ballots_valid abc [["A"; "B"]; ["A"]]%string).
  intros v Hv.
  apply elem_of_cons in Hv as [->|Hv]; [exists 12; by vm_compute|].
  apply elem_of_cons in Hv as [->|Hv]; [exists 1; by vm_compute|].
  by apply elem_of_nil in Hv.
Defined.

(** ** The vote decoder: negative numbers *)

Section Negative.
Implicit Types (s : string) (q : question).

Lemma substring_app_l s1 s2 m :
  substring 0 (String.length s1 + m) (s1 +:+ s2) = s1 +:+ substring 0 m s2.
Proof.
  induction s1 as [|c s1 IH]; [done|].
  rewrite !str_app_cons. simpl. by rewrite IH.
Qed.

Lemma uint_of_string_minus s1 s2 :
  NilEmpty.uint_of_string (s1 +:+ String "-" s2) = None.
Proof.
  induction s1 as [|c s1 IH]; [|rewrite str_app_cons; simpl; by rewrite IH].
  rewrite str_app_nil_l. simpl. by destruct (NilEmpty.uint_of_string s2).
Qed.

(** [int] of a text that has a minus sign after its first character
    raises. *)
Lemma py_int_inner_minus c s1 s2 :
  c ≠ "-"%char → py_int (String c (s1 +:+ String "-" s2)) = None.
Proof.
  intros Hc. unfold py_int, NilZero.int_of_string.
  apply Ascii.eqb_neq in Hc. rewrite Hc.
  unfold NilZero.uint_of_string.
  change (String c (s1 +:+ String "-" s2))
    with (String c s1 +:+ String "-" s2).
  by rewrite uint_of_string_minus.
Qed.

(** [int] of a minus sign followed by digits, if any, is not positive. *)
Lemma py_int_leading_minus s :
  all_digits s = true →
  py_int (String "-" s) = None ∨ ∃ k, py_int (String "-" s) = Some k ∧ k <= 0.
Proof.
  intros Hs. unfold py_int, NilZero.int_of_string. simpl.
  destruct (NilZero.uint_of_string s) as [d|]; [|by left].
  right. eexists. split; [done|]. simpl. 
  pose proof (N2Z.is_nonneg (Pos.of_uint d)). unfold Z.of_uint. lia.
Qed.

Lemma str_mul_zero_cons k : str_mul "0" (S k) = String "0" (str_mul "0" k).
Proof. reflexivity. Qed.
End Negative.

(** X13: a negative number never decodes: the minus sign of its text lands
    in the first field, where [int] either raises or gives a number that
    is not positive, which the loop refuses. *)
Theorem parse_vote_negative (number : Z) (q : question) :
  number < 0 →
  parse_fields number q = None ∧ parse_vote number q = None.
Proof.
  intros Hneg.
  assert (Hfields : parse_fields number q = None);
    [|split; [done|unfold parse_vote; by rewrite Hfields]].
  unfold parse_fields. apply mapM_None, Exists_exists. exists 0%nat.
  pose proof (tab_size_pos q) as Htab.
  pose proof (fields_count_pos q number) as Hn.
  split; [apply elem_of_seq; lia|].
  set (tab := tab_size q) in *.
  destruct number as [|p|p]; [lia..|].
  assert (Hstr : ∃ ds, py_str (Zneg p) = String "-" ds ∧ all_digits ds = true).
  { exists (NilZero.string_of_uint (Pos.to_uint p)). split; [done|].
    apply (all_digits_py_str (Zpos p)). lia. }
  destruct Hstr as (ds & Hstr & Hds). rewrite Hstr in *.
  rewrite pad_vote_zeros by done.
  set (z := num_zeros tab (String.length (String "-" ds))).
  assert (Hz : (z < tab)%nat) by (apply Nat.mod_upper_bound; lia).
  unfold parse_field, field_option, py_slice.
  replace (0 * tab)%nat with 0%nat by lia.
  replace ((0 + 1) * tab - 0)%nat with (z + (tab - z))%nat by lia.
  rewrite <- (length_str_mul z) at 1. rewrite substring_app_l.
  destruct (tab - z)%nat as [|m] eqn:Hm; [lia|].
  change (substring 0 (S m) (String "-" ds))
    with (String "-" (substring 0 m ds)).
  destruct z as [|z'].
  - rewrite str_app_nil_l.
    destruct (py_int_leading_minus (substring 0 m ds)) as [->|(k & -> & Hk)].
    + by apply all_digits_substring.
    + done.
    + simpl. rewrite decide_True by lia. done.
  - rewrite str_mul_zero_cons, str_app_cons.
    rewrite py_int_inner_minus; [done|discriminate].
Qed.

Lemma parse_vote_negative_witness :
  parse_fields (-12) abc = None ∧ parse_vote (-12) abc = None.
Proof. apply (parse_vote_negative (-12) abc). lia. Defined.

(** ** The vote decoder: every selection has an encoding *)

Section Encoding.
Implicit Types (s t : string) (d : Decimal.uint) (q : question).

Lemma substring_app_r s1 s2 n m :
  substring (String.length s1 + n) m (s1 +:+ s2) = substring n m s2.
Proof.
  induction s1 as [|c s1 IH]; [done|]. rewrite str_app_cons. simpl. apply IH.
Qed.

Lemma substring_all s : substring 0 (String.length s) s = s.
Proof. induction s as [|c s IH]; [done|]. simpl. by rewrite IH. Qed.

Lemma uint_of_string_zeros z t d :
  NilEmpty.uint_of_string t = Some d →
  NilEmpty.uint_of_string (str_mul "0" z +:+ t) = Some (Nat.iter z D0 d).
Proof.
  intros Ht. induction z as [|z IH]; [done|].
  rewrite str_mul_zero_cons, str_app_cons. simpl. by rewrite IH.
Qed.

Lemma string_of_uint_leading d :
  leading_digit (NilEmpty.string_of_uint d) → unorm d = d ∧ d ≠ Nil.
Proof. destruct d; simpl; try done. Qed.

Lemma leading_digit_py_str z : 0 < z → leading_digit (py_str z).
Proof.
  intros Hz. destruct z as [|p|p]; [lia| |lia].
  destruct (to_uint_head p) as [Hnil H0].
  unfold py_str. cbn [Z.to_int NilZero.string_of_int].
  unfold NilZero.string_of_uint.
  destruct (Pos.to_uint p) as [|d|d|d|d|d|d|d|d|d|d]; simpl; try done.
  by destruct (H0 d).
Qed.

(** Zeros in front of a text of digits do not change the number it
    denotes, and the text of that number is the text without them. *)
Lemma py_int_zeros z t :
  all_digits t = true → leading_digit t →
  ∃ k, 0 <= k ∧ py_int (str_mul "0" z +:+ t) = Some k ∧ py_str k = t ∧
       py_int t = Some k.
Proof.
  intros Ht Hlead.
  destruct (uint_of_string_digits t Ht) as [d Hd].
  pose proof (NilEmpty.sus _ _ Hd) as Hsus.
  rewrite <- Hsus in Hlead.
  destruct (string_of_uint_leading d Hlead) as [Hnorm Hnil].
  assert (Hint : ∀ z', py_int (str_mul "0" z' +:+ t) =
                       Some (Z.of_int (Pos (Nat.iter z' D0 d)))).
  { intros z'. unfold py_int, NilZero.int_of_string.
    pose proof (uint_of_string_zeros z' t d Hd) as Hz.
    destruct (str_mul "0" z' +:+ t) as [|c s'] eqn:Hs.
    - simpl in Hz. injection Hz as Hz. destruct z'; simpl in Hz; [by subst|done].
    - assert (Hc : Ascii.eqb c "-" = false).
      { apply Ascii.eqb_neq. intros ->.
        assert (Hall : all_digits (String "-" s') = true).
        { rewrite <- Hs, all_digits_app, all_digits_str_mul. done. }
        discriminate Hall. }
      rewrite Hc. unfold NilZero.uint_of_string. by rewrite Hz. }
  exists (Z.of_int (Pos d)). split_and!.
  - apply N2Z.is_nonneg.
  - rewrite Hint. f_equal. unfold Z.of_int, Z.of_uint. f_equal.
    clear. induction z as [|z IH]; [done|]. simpl. exact IH.
  - unfold py_str. rewrite DecimalZ.to_of. simpl. rewrite Hnorm.
    unfold NilZero.string_of_uint. by destruct d.
  - apply (Hint 0%nat).
Qed.
End Encoding.

Section Completeness.
Implicit Types (q : question) (idxs : list nat).

Lemma field_text_spec q i :
  (i < length (q_answers q))%nat →
  (String.length (py_str (Z.of_nat i + 1)) ≤ tab_size q)%nat ∧
  String.length (field_text (tab_size q) i) = tab_size q ∧
  all_digits (field_text (tab_size q) i) = true ∧
  py_int (field_text (tab_size q) i) = Some (Z.of_nat i + 1).
Proof.
  intros Hi.
  pose proof (length_py_str_digits (Z.of_nat i + 1) ltac:(lia)) as [Hlo _].
  pose proof (length_py_str_digits (Z.of_nat (length (q_answers q)) + 2)
                ltac:(lia)) as [_ Hhi].
  fold (tab_size q) in Hhi.
  pose proof (length_py_str (Z.of_nat i + 1)) as Hpos.
  set (s := py_str (Z.of_nat i + 1)) in *.
  assert (Hle : (String.length s ≤ tab_size q)%nat).
  { destruct (Nat.le_gt_cases (String.length s) (tab_size q)) as [|Hgt];
      [done|].
    assert (10 ^ Z.of_nat (tab_size q) <= 10 ^ (Z.of_nat (String.length s) - 1))
      by (apply Z.pow_le_mono_r; lia). lia. }
  assert (Hs : all_digits s = true) by (apply all_digits_py_str; lia).
  unfold field_text. fold s. split_and!; [done| | |].
  - rewrite str_length_app, length_str_mul. lia.
  - by rewrite all_digits_app, all_digits_str_mul.
  - destruct (py_int_zeros (tab_size q - String.length s) s Hs)
      as (k & _ & -> & _ & Hk).
    + apply leading_digit_py_str. lia.
    + rewrite <- Hk. apply py_int_py_str.
Qed.

Lemma fields_text_spec q idxs :
  (∀ i, i ∈ idxs → (i < length (q_answers q))%nat) →
  String.length (fields_text (tab_size q) idxs) =
    (length idxs * tab_size q)%nat ∧
  all_digits (fields_text (tab_size q) idxs) = true ∧
  ∀ j i, idxs !! j = Some i →
         py_slice (fields_text (tab_size q) idxs)
           (j * tab_size q) ((j + 1) * tab_size q) =
         field_text (tab_size q) i.
Proof.
  induction idxs as [|i0 idxs IH]; intros Hidx; [done|].
  destruct (field_text_spec q i0) as (_ & Hlen0 & Hd0 & _); [apply Hidx; left|].
  destruct IH as (Hlen & Hd & Hslice); [intros i Hi; apply Hidx; by right|].
  cbn [fields_text foldr]. fold (fields_text (tab_size q) idxs).
  split_and!.
  - rewrite str_length_app, Hlen0, Hlen. simpl. lia.
  - by rewrite all_digits_app, Hd0, Hd.
  - intros [|j] i Hj; simpl in Hj; unfold py_slice.
    + injection Hj as ->.
      replace (0 * tab_size q)%nat with 0%nat by lia.
      replace ((0 + 1) * tab_size q - 0)%nat
        with (String.length (field_text (tab_size q) i) + 0)%nat by lia.
      rewrite substring_app_l.
      destruct (fields_text (tab_size q) idxs); simpl; apply str_app_nil_r.
    + replace (S j * tab_size q)%nat
        with (String.length (field_text (tab_size q) i0) + j * tab_size q)%nat
        by lia.
      rewrite substring_app_r.
      replace ((S j + 1) * tab_size q -
               (String.length (field_text (tab_size q) i0) + j * tab_size q))%nat
        with ((j + 1) * tab_size q - j * tab_size q)%nat by lia.
      by apply Hslice.
Qed.
End Completeness.

Section RoundTrip.
Implicit Types (q : question) (idxs : list nat).

Lemma num_zeros_restores tab len0 n :
  (1 ≤ len0 ≤ tab)%nat →
  num_zeros tab (len0 + n * tab) = (tab - len0)%nat.
Proof.
  intros Hlen. unfold num_zeros. rewrite Nat.Div0.mod_add.
  destruct (decide (len0 = tab)) as [->|Hne].
  - rewrite Nat.Div0.mod_same, Nat.sub_0_r, Nat.Div0.mod_same. lia.
  - rewrite (Nat.mod_small len0) by lia. apply Nat.mod_small. lia.
Qed.

Lemma parse_field_field_text q s j i a :
  q_answers q !! i = Some a →
  py_slice s (j * tab_size q) ((j + 1) * tab_size q) =
    field_text (tab_size q) i →
  parse_field q (tab_size q) s j = Some (value a).
Proof.
  intros Ha Hslice. pose proof (lookup_lt_Some _ _ _ Ha) as Hi.
  destruct (field_text_spec q i Hi) as (_ & _ & _ & Hint).
  unfold parse_field, field_option. rewrite Hslice, Hint. simpl.
  rewrite decide_False, decide_True by lia.
  replace (Z.to_nat (Z.of_nat i + 1 - 1)) with i by lia. by rewrite Ha.
Qed.
End RoundTrip.

(** X14: every selection can be encoded.  For a non-empty list of answer
    positions, the number whose decimal text is the list of the positions,
    counted from 1 and written with zeros in front up to the field width,
    decodes field by field to the values of these answers, in that order;
    [parse_vote] returns them when they pass the validation. *)
Theorem parse_vote_complete (q : question) (idxs : list nat) :
  idxs ≠ [] →
  (∀ i, i ∈ idxs → (i < length (q_answers q))%nat) →
  ∃ number ret,
    0 <= number ∧
    py_int (fields_text (tab_size q) idxs) = Some number ∧
    Forall2 (λ i v, value <$> q_answers q !! i = Some v) idxs ret ∧
    parse_fields number q = Some ret ∧
    (¬ invalid_vote q ret → parse_vote number q = Some ret).
Proof.
  intros Hne Hidx. pose proof (tab_size_pos q) as Htab.
  destruct (fields_text_spec q idxs Hidx) as (Hlen & Hdig & Hslice).
  destruct idxs as [|i0 rest]; [done|]. clear Hne.
  destruct (field_text_spec q i0) as (Hle0 & _ & _ & _); [apply Hidx; left|].
  destruct (fields_text_spec q rest) as (HlenR & HdigR & _);
    [intros i Hi; apply Hidx; by right|].
  set (S := fields_text (tab_size q) (i0 :: rest)) in *.
  set (s0 := py_str (Z.of_nat i0 + 1)) in *.
  set (R := fields_text (tab_size q) rest) in *.
  assert (HS : S = str_mul "0" (tab_size q - String.length s0) +:+ (s0 +:+ R)).
  { unfold S. cbn [fields_text foldr]. fold R. unfold field_text. fold s0.
    by rewrite str_app_assoc. }
  pose proof (length_py_str (Z.of_nat i0 + 1)) as Hpos0. fold s0 in Hpos0.
  destruct (py_int_zeros (tab_size q - String.length s0) (s0 +:+ R))
    as (k & Hk0 & Hint & Hstr & _).
  { rewrite all_digits_app, HdigR. unfold s0.
    rewrite all_digits_py_str by lia. done. }
  { pose proof (leading_digit_py_str (Z.of_nat i0 + 1) ltac:(lia)) as Hl.
    fold s0 in Hl. by destruct s0. }
  rewrite <- HS in Hint.
  assert (Hpad : pad_vote (tab_size q) (py_str k) = S).
  { rewrite pad_vote_zeros, Hstr, HS by done. f_equal.
    rewrite str_length_app, HlenR. f_equal. apply num_zeros_restores. lia. }
  set (ret := map (λ i, from_option value ""%string (q_answers q !! i))
                  (i0 :: rest)).
  assert (Hret : Forall2 (λ i v, value <$> q_answers q !! i = Some v)
                         (i0 :: rest) ret).
  { unfold ret. apply Forall2_fmap_r, Forall_Forall2_diag, Forall_forall.
    intros i Hi.
    pose proof (Hidx i Hi) as Hlt. unfold compose.
    destruct (q_answers q !! i) as [a|] eqn:Ha; [reflexivity|].
    apply lookup_ge_None in Ha. lia. }
  assert (Hfields : parse_fields k q = Some ret).
  { unfold parse_fields. rewrite Hpad, Hlen, Nat.div_mul by lia.
    apply mapM_Some_2, Forall2_same_length_lookup_2.
    - unfold ret. by rewrite length_seq, length_map.
    - intros j j' v Hj Hv. apply lookup_seq in Hj as [-> Hj].
      simpl in Hv. unfold ret in Hv.
      apply list_lookup_fmap_Some in Hv as (i & -> & Hi).
      destruct (lookup_lt_is_Some_2 (q_answers q) i) as [a Ha].
      { apply Hidx. by eapply list_elem_of_lookup_2. }
      rewrite Ha. simpl.
      apply (parse_field_field_text q S j i a Ha). by apply Hslice. }
  exists k, ret. split_and!; [done..|].
  intros Hvalid. unfold parse_vote. rewrite Hfields. simpl.
  by rewrite decide_False.
Qed.

Lemma parse_vote_complete_witness :
  ∃ number ret,
    0 <= number ∧
    py_int (fields_text (tab_size abc) [2; 0]%nat) = Some number ∧
    Forall2 (λ i v, value <$> q_answers abc !! i = Some v) [2; 0]%nat ret ∧
    parse_fields number abc = Some ret ∧
    (¬ invalid_vote abc ret → parse_vote number abc = Some ret).
Proof.
  apply (parse_vote_complete abc [2; 0]%nat).
  - discriminate.
  - apply Forall_forall. apply (bool_decide_unpack _). vm_compute. exact I.
Defined.

(** ** The result composer: exact percentages and errors *)

Section Endpoints.
Implicit Types (T : Z).

Lemma percentage_float_all T :
  0 < T → 100 * T < 2 ^ 53 → percentage_float T T = Some hundred.
Proof.
  intros HT Hbound. unfold percentage_float, float_of_int.
  rewrite (binary_normalize_exact T) by lia. cbn [mbind option_bind].
  rewrite SFmul_hundred_exact by lia. cbn [float_div]. f_equal.
  destruct (norm_m_bounds T) as [HdT HmT]; [lia|].
  destruct (norm_m_bounds (100 * T)) as [Hdx Hmx]; [lia|].
  unfold SFdiv. rewrite SFdiv_core_binary_normal;
    rewrite ?Z2Pos.id by lia; [|lia|lia|unfold norm_e; lia..].
  cbn [xorb].
  set (E := 53 - norm_e (100 * T) + norm_e T).
  assert (HE : 0 <= E) by (unfold E, norm_e; lia).
  assert (Hval : norm_m (100 * T) * 2 ^ 53 = 100 * 2 ^ E * norm_m T).
  { unfold E, norm_m, norm_e.
    set (dx := Zdigits2 (100 * T)) in *. set (dT := Zdigits2 T) in *.
    replace (53 - (dx - 53) + (dT - 53)) with ((53 - dx) + dT) by lia.
    rewrite (Z.pow_add_r 2 (53 - dx) dT) by lia.
    replace (2 ^ 53) with (2 ^ dT * 2 ^ (53 - dT))
      by (rewrite <- Z.pow_add_r by lia; f_equal; lia).
    ring. }
  rewrite Hval, Z.div_mul, Z.mod_mul by lia.
  rewrite new_location_exact.
  assert (HE46 : 46 <= E).
  { destruct (Z.le_gt_cases 46 E) as [|Hlt]; [done|].
    assert (2 ^ E <= 2 ^ 45) by (apply Z.pow_le_mono_r; lia). nia. }
  replace (100 * 2 ^ E) with (7036874417766400 * 2 ^ (E - 46)).
  - replace (norm_e (100 * T) - norm_e T - 53) with (-46 - (E - 46))
      by (unfold E; lia).
    rewrite binary_round_aux_exact by lia. done.
  - change 7036874417766400 with (100 * 2 ^ 46).
    rewrite <- Z.mul_assoc, <- Z.pow_add_r by lia. do 2 f_equal. lia.
Qed.

Lemma percentage_float_none T :
  0 < T < 2 ^ 53 → percentage_float 0 T = Some (S754_zero false).
Proof.
  intros HT. unfold percentage_float, float_of_int.
  by rewrite (binary_normalize_exact T) by lia.
Qed.
End Endpoints.

(** X15: with a positive vote weight whose hundredfold is below 2^53, an
    answer that holds the whole weight gets exactly the double 100.0, and
    an answer without votes gets exactly the double 0.0. *)
Theorem percentage_endpoints (T : Z) :
  0 < T → 100 * T < 2 ^ 53 →
  percentage T T = Some (PyFloat hundred) ∧
  percentage 0 T = Some (PyFloat (S754_zero false)).
Proof.
  intros HT Hbound. unfold percentage. rewrite !decide_True by lia.
  rewrite percentage_float_all, percentage_float_none by lia. done.
Qed.

Lemma percentage_endpoints_witness :
  percentage 7 7 = Some (PyFloat hundred) ∧
  percentage 0 7 = Some (PyFloat (S754_zero false)).
Proof. apply (percentage_endpoints 7); vm_compute; reflexivity. Defined.

Section Composer.
Implicit Types (r : json_report) (l : list answer) (T : Z).


(** The loop stops at the first answer that the report lacks: the answers
    before it are filled, the others are as they were. *)
Lemma fill_answers_missing r T l k a :
  l !! k = Some a →
  report_answers r !! value a = None →
  (∀ j a', (j < k)%nat → l !! j = Some a' →
     ∃ c, report_answers r !! value a' = Some c ∧ is_Some (percentage c T)) →
  ∃ l', fill_answers r T l = (l', Raised) ∧
        (∀ j, (k ≤ j)%nat → l' !! j = l !! j) ∧
        (∀ j a', (j < k)%nat → l !! j = Some a' →
           ∃ c p, report_answers r !! value a' = Some c ∧
                  percentage c T = Some p ∧
                  l' !! j = Some (mkAnswer (value a') (Some c) (Some p))).
Proof.
  revert k. induction l as [|a0 l IH]; intros k Hk Hmiss Hbefore; [done|].
  destruct k as [|k]; simpl in Hk.
  - injection Hk as ->. exists (a :: l). simpl. rewrite Hmiss.
    split_and!; [done|done|]. intros j a' Hj. lia.
  - destruct (Hbefore 0%nat a0) as (c & Hc & [p Hp]); [lia|done|].
    destruct (IH k Hk Hmiss) as (l' & Hfill & Hafter & Hfilled).
    { intros j a' Hj Ha'. apply (Hbefore (S j) a'); [lia|done]. }
    exists (mkAnswer (value a0) (Some c) (Some p) :: l'). simpl.
    rewrite Hc, Hp, Hfill. split_and!; [done| |].
    + intros [|j] Hj; [lia|]. simpl. apply Hafter. lia.
    + intros [|j] a' Hj Ha'; simpl in *.
      * injection Ha' as <-. by exists c, p.
      * apply Hfilled; [lia|done].
Qed.
End Composer.




(** X18: when the winners of the report decode, the report lacks the name
    of an answer and has a count with a percentage for every answer before
    it, [fill_results] raises: the answers before are filled with their
    count and percentage, that answer and those after it are as they were,
    and the totals and the decoded winners are stored all the same. *)
Theorem fill_results_missing_name (r : json_report) (q : question)
    (ws : list (list Z)) (k : nat) (a : answer) :
  decode_winners r = Some ws →
  q_answers q !! k = Some a →
  report_answers r !! value a = None →
  (∀ j a', (j < k)%nat → q_answers q !! j = Some a' →
     ∃ c, report_answers r !! value a' = Some c ∧
          is_Some (percentage c (total_vote_weight r))) →
  let q' := (fill_results r q).1 in
  (fill_results r q).2 = Raised ∧
  (∀ j, (k ≤ j)%nat → q_answers q' !! j = q_answers q !! j) ∧
  (∀ j a', (j < k)%nat → q_answers q !! j = Some a' →
     ∃ c p, report_answers r !! value a' = Some c ∧
            percentage c (total_vote_weight r) = Some p ∧
            q_answers q' !! j = Some (mkAnswer (value a') (Some c) (Some p))) ∧
  q_total_votes q' = Some (ballots_count r) ∧
  q_dirty_votes q' = Some (dirty_ballots_count r - ballots_count r) ∧
  q_winners q' = Some ws.
Proof.
  intros Hws Hk Hmiss Hbefore.
  destruct (fill_answers_missing r (total_vote_weight r) (q_answers q) k a
              Hk Hmiss Hbefore) as (l' & Hfill & Hafter & Hfilled).
  unfold fill_results. rewrite Hws. simpl. rewrite Hfill. simpl.
  by split_and!.
Qed.

Lemma fill_results_missing_name_witness :
  let q' := (fill_results abc_report
               (mkQuestion [mkAnswer "A" None None; mkAnswer "Z" None None;
                            mkAnswer "B" None None] 1 2 1 "Q" None None None)).1 in
  (fill_results abc_report
     (mkQuestion [mkAnswer "A" None None; mkAnswer "Z" None None;
                  mkAnswer "B" None None] 1 2 1 "Q" None None None)).2 = Raised ∧
  (∀ j, (1 ≤ j)%nat →
        q_answers q' !! j =
        [mkAnswer "A" None None; mkAnswer "Z" None None;
         mkAnswer "B" None None] !! j) ∧
  (∀ j a', (j < 1)%nat →
     [mkAnswer "A" None None; mkAnswer "Z" None None;
      mkAnswer "B" None None] !! j = Some a' →
     ∃ c p, report_answers abc_report !! value a' = Some c ∧
            percentage c (total_vote_weight abc_report) = Some p ∧
            q_answers q' !! j = Some (mkAnswer (value a') (Some c) (Some p))) ∧
  q_total_votes q' = Some (ballots_count abc_report) ∧
  q_dirty_votes q' =
    Some (dirty_ballots_count abc_report - ballots_count abc_report) ∧
  q_winners q' = Some [[65]].
Proof.
  apply (fill_results_missing_name abc_report
           (mkQuestion [mkAnswer "A" None None; mkAnswer "Z" None None;
                        mkAnswer "B" None None] 1 2 1 "Q" None None None)
           [[65]] 1 (mkAnswer "Z" None None)).
  - vm_compute. reflexivity.
  - reflexivity.
  - vm_compute. reflexivity.
  - intros j a' Hj Ha'. destruct j as [|j]; [|lia].
    injection Ha' as <-. exists 2. split; [by vm_compute|].
    vm_compute. by eexists.
Defined.

(** A winner that is not UTF-8: the byte 0xFF starts no character, so the
    call raises with the totals stored, without winners and with the answer
    untouched; the bytes 0xC3 0xA9 and 0xE2 0x82 0xAC decode to U+00E9 and
    U+20AC. *)
Example undecodable_winner_example :
  decode_utf8 (String "255" "") = None ∧
  fill_results (mkReport 1 1 [String "255" ""] (<["A"%string := 1]> ∅))
               one_answer =
    (mkQuestion [mkAnswer "A" None None] 0 1 1 "Q" (Some 1) (Some 0) None,
     Raised) ∧
  decode_utf8 (String "195" (String "169" "")) = Some [233] ∧
  decode_utf8 (String "226" (String "130" (String "172" ""))) = Some [8364].
Proof. split_and!; by vm_compute. Qed.

(** ** The ballot file: lines *)

Section Lines.
Implicit Types (s : string) (z : Z).

Lemma count_nl_app s1 s2 : count_nl (s1 +:+ s2) = (count_nl s1 + count_nl s2)%nat.
Proof.
  induction s1 as [|c s1 IH]; [done|]. rewrite str_app_cons. simpl.
  rewrite IH. lia.
Qed.

Lemma count_nl_digits s : all_digits s = true → count_nl s = 0%nat.
Proof.
  induction s as [|c s IH]; [done|]. simpl.
  intros [Hc Hs]%andb_true_iff. rewrite (IH Hs).
  destruct (Ascii.eqb_spec c "010") as [->|]; [discriminate Hc|done].
Qed.

Lemma count_nl_py_str z : count_nl (py_str z) = 0%nat.
Proof.
  destruct z as [|p|p].
  - done.
  - apply count_nl_digits, all_digits_py_str. lia.
  - change (py_str (Zneg p)) with (String "-" (py_str (Zpos p))).
    simpl. apply count_nl_digits, all_digits_py_str. lia.
Qed.

Lemma count_nl_strip s : count_nl (strip_newlines s) = 0%nat.
Proof.
  induction s as [|c s IH]; [done|]. simpl.
  destruct (Ascii.eqb_spec c "010") as [->|Hne]; [done|].
  simpl. apply Ascii.eqb_neq in Hne. by rewrite Hne, IH.
Qed.

Lemma count_nl_join (ids : list Z) :
  count_nl (String.concat " " (map py_str ids)) = 0%nat.
Proof.
  induction ids as [|id ids IH]; [done|].
  destruct ids as [|id' ids]; [apply count_nl_py_str|].
  change (String.concat " " (map py_str (id :: id' :: ids)))
    with (py_str id +:+ " " +:+ String.concat " " (map py_str (id' :: ids))).
  rewrite !count_nl_app, count_nl_py_str, IH. done.
Qed.

Lemma count_nl_ballot_line (b : ballot) : count_nl (ballot_line b) = 1%nat.
Proof.
  unfold ballot_line.
  rewrite !count_nl_app, count_nl_py_str, count_nl_join. done.
Qed.

Lemma count_nl_quoted_line s : count_nl (quoted_line s) = S (count_nl s).
Proof. unfold quoted_line. rewrite !count_nl_app. simpl. lia. Qed.

Lemma count_nl_concat_lines {A} (f : A → string) (g : A → nat) (l : list A) :
  (∀ x, count_nl (f x) = g x) →
  count_nl (String.concat "" (map f l)) = sum_list (map g l).
Proof.
  intros Hf. induction l as [|x l IH]; [done|].
  destruct l as [|y l].
  - simpl. rewrite Hf. lia.
  - change (String.concat "" (map f (x :: y :: l)))
      with (f x +:+ "" +:+ String.concat "" (map f (y :: l))).
    rewrite !count_nl_app, IH, Hf. simpl. lia.
Qed.
End Lines.

(** X19: the ballot file that [pre_tally], the votes and
    [finish_writing_ballots_file] leave has one line for the header, one per
    ballot, one for the closing 0, one per answer and one for the question,
    plus one more for every newline inside an answer value: the newlines of
    the question's text are dropped, those of the answer values are
    written as they are. *)
Theorem ballots_file_lines (t : ApprovalTally) (q : question)
    (vs : list (list string)) :
  let t' := add_votes (pre_tally t q) vs in
  count_nl (ballots_file (finish_writing_ballots_file t' q)) =
  (3 + length (ballots t') + length (q_answers q) +
   sum_list (map (λ a, count_nl (value a)) (q_answers q)))%nat.
Proof.
  intros t'. unfold finish_writing_ballots_file. simpl.
  rewrite !write_lines_concat. unfold t' at 1. rewrite add_votes_file. simpl.
  rewrite !count_nl_app.
  rewrite (count_nl_concat_lines ballot_line (λ _, 1%nat))
    by apply count_nl_ballot_line.
  rewrite (count_nl_concat_lines (λ a, quoted_line (value a))
             (λ a, S (count_nl (value a))))
    by (intros a; apply count_nl_quoted_line).
  rewrite count_nl_quoted_line, count_nl_strip.
  unfold header_line. rewrite !count_nl_app, !count_nl_py_str. simpl.
  assert (H1 : ∀ (bs : list ballot),
            sum_list (map (λ _ : ballot, 1%nat) bs) = length bs).
  { intros bs. induction bs; simpl; lia. }
  assert (H2 : ∀ (l : list answer),
            sum_list (map (λ a, S (count_nl (value a))) l) =
            (length l + sum_list (map (λ a, count_nl (value a)) l))%nat).
  { intros l. induction l; simpl; lia. }
  rewrite H1, H2. lia.
Qed.

Section Tokens.
Implicit Types (s a r : string) (z : Z).

Lemma has_space_digits s : all_digits s = true → has_space s = false.
Proof.
  induction s as [|c s IH]; [done|]. simpl.
  intros [Hc Hs]%andb_true_iff. rewrite (IH Hs), orb_false_r.
  apply Ascii.eqb_neq. intros ->. discriminate Hc.
Qed.

Lemma has_space_py_str z : has_space (py_str z) = false.
Proof.
  destruct z as [|p|p].
  - done.
  - apply has_space_digits, all_digits_py_str. lia.
  - change (py_str (Zneg p)) with (String "-" (py_str (Zpos p))).
    simpl. apply has_space_digits, all_digits_py_str. lia.
Qed.

Lemma has_space_app_blank a r : has_space (a +:+ String " " r) = true.
Proof.
  induction a as [|c a IH]; [done|]. rewrite str_app_cons. simpl.
  by rewrite IH, orb_true_r.
Qed.

(** A text is cut at its first blank in one way only. *)
Lemma first_blank_unique a1 a2 r1 r2 :
  has_space a1 = false → has_space a2 = false →
  a1 +:+ String " " r1 = a2 +:+ String " " r2 → a1 = a2 ∧ r1 = r2.
Proof.
  revert a2. induction a1 as [|c1 a1 IH]; intros [|c2 a2] H1 H2 Heq.
  - rewrite !str_app_nil_l in Heq. by injection Heq as ->.
  - rewrite str_app_nil_l, str_app_cons in Heq. injection Heq as <- _.
    simpl in H2. discriminate H2.
  - rewrite str_app_nil_l, str_app_cons in Heq. injection Heq as -> _.
    simpl in H1. discriminate H1.
  - rewrite !str_app_cons in Heq. injection Heq as -> Heq.
    simpl in H1, H2. apply orb_false_iff in H1 as [_ H1].
    apply orb_false_iff in H2 as [_ H2].
    destruct (IH a2 H1 H2 Heq) as [-> ->]. done.
Qed.

Lemma str_app_inv_tail s1 s2 e : s1 +:+ e = s2 +:+ e → s1 = s2.
Proof.
  revert s2. induction s1 as [|c1 s1 IH]; intros [|c2 s2] Heq.
  - done.
  - apply (f_equal String.length) in Heq.
    rewrite str_app_nil_l, str_app_cons in Heq. simpl in Heq.
    rewrite str_length_app in Heq. lia.
  - apply (f_equal String.length) in Heq.
    rewrite str_app_nil_l, str_app_cons in Heq. simpl in Heq.
    rewrite str_length_app in Heq. lia.
  - rewrite !str_app_cons in Heq. injection Heq as -> Heq.
    by rewrite (IH s2 Heq).
Qed.

Lemma py_str_inj z1 z2 : py_str z1 = py_str z2 → z1 = z2.
Proof.
  intros Heq. pose proof (py_int_py_str z1) as H1.
  rewrite Heq, py_int_py_str in H1. by injection H1.
Qed.

Lemma py_str_nonempty z : py_str z ≠ ""%string.
Proof.
  intros Heq. pose proof (length_py_str z) as Hlen. rewrite Heq in Hlen.
  simpl in Hlen. lia.
Qed.

Lemma join_cons z (zs : list Z) :
  String.concat " " (map py_str (z :: zs)) =
  match zs with
  | [] => py_str z
  | _ => py_str z +:+ String " " (String.concat " " (map py_str zs))
  end.
Proof. by destruct zs. Qed.

(** The ids can be read back from their text. *)
Lemma join_inj (ids1 ids2 : list Z) :
  String.concat " " (map py_str ids1) = String.concat " " (map py_str ids2) →
  ids1 = ids2.
Proof.
  revert ids2. induction ids1 as [|x xs IH]; intros [|y ys] Heq.
  - done.
  - rewrite join_cons in Heq. simpl in Heq. exfalso.
    destruct ys; [by apply (py_str_nonempty y)|].
    pose proof (length_py_str y). apply (f_equal String.length) in Heq.
    rewrite str_length_app in Heq. simpl in Heq. lia.
  - rewrite join_cons in Heq. simpl in Heq. exfalso.
    destruct xs; [by apply (py_str_nonempty x)|].
    pose proof (length_py_str x). apply (f_equal String.length) in Heq.
    rewrite str_length_app in Heq. simpl in Heq. lia.
  - rewrite !join_cons in Heq.
    destruct xs as [|x' xs], ys as [|y' ys].
    + by rewrite (py_str_inj _ _ Heq).
    + exfalso. apply (f_equal has_space) in Heq.
      by rewrite has_space_py_str, has_space_app_blank in Heq.
    + exfalso. apply (f_equal has_space) in Heq.
      by rewrite has_space_py_str, has_space_app_blank in Heq.
    + destruct (first_blank_unique _ _ _ _ (has_space_py_str x)
                  (has_space_py_str y) Heq) as [Hxy Hrest].
      by rewrite (py_str_inj _ _ Hxy), (IH _ Hrest).
Qed.
End Tokens.

(** X20: the line of a ballot tells the ballot: two ballots that differ in
    their votes or in their id list have different lines, so the ballot
    section of the file can be read back without loss. *)
Theorem ballot_line_inj (b1 b2 : ballot) :
  b1 ≠ b2 → ballot_line b1 ≠ ballot_line b2.
Proof.
  unfold ballot_line. intros Hne Heq. apply Hne.
  change (" " +:+ ?s)%string with (String " " s) in Heq.
  destruct (first_blank_unique _ _ _ _ (has_space_py_str (votes b1))
              (has_space_py_str (votes b2)) Heq) as [Hv Hrest].
  apply str_app_inv_tail, join_inj in Hrest.
  apply py_str_inj in Hv. destruct b1, b2. simpl in *. by subst.
Qed.

Lemma ballot_line_inj_witness :
  ballot_line {| votes := 1; answers := [1; 2] |} ≠
  ballot_line {| votes := 1; answers := [12] |}.
Proof. apply ballot_line_inj. discriminate. Defined.
